(** * Mining and validation engine of the part-one blockchain

    A shallow embedding of the mineable chain ([MineableTransaction],
    [MineableBlock], [MineableChain], [isValidMineableChain],
    [leadingZeros]) and of the structural validators
    ([isValidTransaction], [isValidBlock], [isValidChain]), followed by
    the properties established about them.

    Conventions of the embedding:
    - JavaScript numbers that the engine handles (amounts, reward,
      difficulty, nonces) are integers and are modelled by [Z]; the one
      non-integer number the code can produce, [NaN], is a constructor of
      [cell].
    - identities, keys, signatures and digests are strings;
    - a property that may hold [null] or be missing is modelled with an
      explicit constructor for each of the two;
    - an exception aborts the computation: [result] is the error type;
    - the proof-of-work loop is unbounded in the source; [pow_search]
      takes a fuel argument and answers [None] when it runs out. *)

From Stdlib Require Import ZArith Lia Ascii String.
From stdpp Require Import base strings list gmap pretty.

(** ** JavaScript values *)

(** The value of a [hash] or [previousHash] property: missing (read as
    [undefined]), [null], or a string. *)
Inductive hashval : Type :=
  | HUndefined
  | HNull
  | HStr (s : string).

#[global] Instance hashval_eq_dec : EqDecision hashval.
Proof. solve_decision. Defined.

(** The value of a property of the accumulator object of the ledger
    replay: missing, a boolean (the [isValid] flag), an integer number,
    or [NaN]. *)
Inductive cell : Type :=
  | CUndefined
  | CBool (b : bool)
  | CNum (n : Z)
  | CNaN.

#[global] Instance cell_eq_dec : EqDecision cell.
Proof. solve_decision. Defined.

Inductive error : Type :=
  | TypeError
  | RangeError.

Inductive result (A : Type) : Type :=
  | Ok (a : A)
  | Throw (e : error).
Arguments Ok {A} a.
Arguments Throw {A} e.

#[global] Instance result_bind : MBind result := λ A B f r,
  match r with
  | Ok a => f a
  | Throw e => Throw e
  end.

(** [xs.map(f)] for an [f] that may throw: the first exception wins. *)
Fixpoint map_result {A B : Type} (f : A → result B) (l : list A) : result (list B) :=
  match l with
  | [] => Ok []
  | x :: l' => y ← f x; ys ← map_result f l'; Ok (y :: ys)
  end.

(** Truthiness ([ToBoolean]). *)
Definition truthy_str (s : string) : bool := negb (String.eqb s "").

Definition truthy_opt (o : option string) : bool :=
  match o with
  | Some s => truthy_str s
  | None => false
  end.

Definition truthy_hash (h : hashval) : bool :=
  match h with
  | HStr s => truthy_str s
  | _ => false
  end.

Definition truthy (c : cell) : bool :=
  match c with
  | CBool b => b
  | CNum n => negb (n =? 0)%Z
  | CUndefined | CNaN => false
  end.

(** [ToNumber] on a cell; [None] stands for [NaN]. *)
Definition to_number (c : cell) : option Z :=
  match c with
  | CBool true => Some 1%Z
  | CBool false => Some 0%Z
  | CNum n => Some n
  | CUndefined | CNaN => None
  end.

Definition of_number (o : option Z) : cell :=
  match o with
  | Some n => CNum n
  | None => CNaN
  end.

(** [c >= a], [c - a] and [c + a] for a number [a]. The arithmetic is that
    of the integers, which is the arithmetic of JavaScript numbers as long
    as operands and result stay between [Number.MIN_SAFE_INTEGER] and
    [Number.MAX_SAFE_INTEGER]. *)
Definition cell_ge (c : cell) (a : Z) : bool :=
  match to_number c with
  | Some n => (a <=? n)%Z
  | None => false
  end.

Definition cell_sub (c : cell) (a : Z) : cell :=
  of_number ((λ n, n - a)%Z <$> to_number c).

Definition cell_add (c : cell) (a : Z) : cell :=
  of_number ((λ n, n + a)%Z <$> to_number c).

(** String conversion in a concatenation: [null] prints as ["null"], an
    integer in decimal. *)
Definition str_of_null (o : option string) : string :=
  match o with
  | Some s => s
  | None => "null"
  end.

Definition num_to_string (a : Z) : string := pretty a.

(** [xs.includes(b)] on an array of booleans. *)
Definition includes (b : bool) (l : list bool) : bool :=
  existsb (Bool.eqb b) l.

(** ['0'.repeat(n)] and [str.slice(0, n)] for [n >= 0]. *)
Fixpoint zeros (n : nat) : string :=
  match n with
  | O => ""
  | S n' => String "0"%char (zeros n')
  end.

Definition slice0 (n : nat) (s : string) : string := substring 0 n s.

(** ** Data model *)

Record Transaction : Type := mkTransaction {
  source : option string;      (* [null] for a reward *)
  recipient : string;
  amount : Z;
  signature : string
}.

Record Block : Type := mkBlock {
  transactions : list Transaction;
  previousHash : hashval;
  nonce : option Z;            (* [None]: the property is missing *)
  hash : hashval
}.

Record Chain : Type := mkChain {
  blocks : list Block;
  difficulty : Z;
  reward : Z;
  pendingTransactions : list Transaction
}.

(** ** External collaborators *)

(** The [./signing] module. Its implementation is outside the engine; the
    engine only calls these three functions. *)
Class Signing : Type := {
  getPublicKey : string → string;
  sign : string → string → string;
  verify : option string → string → string → bool
}.

(** The digest computed over a block's contents, and the nonce the base
    [Block] constructor starts from. *)
Class Hashing : Type := {
  digest : list Transaction → hashval → option Z → string;
  initialNonce : Z
}.

(** ** The engine *)

Section Engine.
Context `{Signing} `{Hashing}.

(** *** mineable.js *)

(** [new MineableTransaction(privateKey, recipient = null, amount)].
    An omitted recipient is [None]. The message handed to [sign] is built
    from [this.source], the parameter [recipient] and [amount]. *)
Definition signedMessage (privateKey : string) (recipient : option string)
    (amount : Z) : string :=
  let this_source :=
    if truthy_opt recipient then Some (getPublicKey privateKey) else None in
  "" +:+ str_of_null this_source +:+ str_of_null recipient +:+ num_to_string amount.

Definition MineableTransaction (privateKey : string) (recipient : option string)
    (amount : Z) : Transaction :=
  {| source := if truthy_opt recipient then Some (getPublicKey privateKey) else None;
     recipient := if truthy_opt recipient then default "" recipient
                  else getPublicKey privateKey;
     amount := amount;
     signature := sign privateKey (signedMessage privateKey recipient amount) |}.

(** Modelled from the spec: [Block.prototype.calculateHash(nonce)] of
    [blockchain.js], which stores the nonce and the digest of the block's
    transactions, previous hash and nonce. *)
Definition calculateHash (b : Block) (n : Z) : Block :=
  {| transactions := transactions b;
     previousHash := previousHash b;
     nonce := Some n;
     hash := HStr (digest (transactions b) (previousHash b) (Some n)) |}.

(** Modelled from the spec: [Block.prototype.verifyHash()] of
    [blockchain.js], which recomputes the digest from the block's current
    contents. *)
Definition verifyHash (b : Block) : hashval :=
  HStr (digest (transactions b) (previousHash b) (nonce b)).

(** Modelled from the spec: the constructor of the base [Block] of
    [blockchain.js], which keeps the transactions and previous hash and
    computes a first hash. *)
Definition newBlock (txs : list Transaction) (prev : hashval) : Block :=
  calculateHash
    {| transactions := txs; previousHash := prev; nonce := None; hash := HUndefined |}
    initialNonce.

(** [new MineableBlock(transactions, previousHash)]: the base constructor,
    then [delete this.nonce; delete this.hash]. *)
Definition MineableBlock (txs : list Transaction) (prev : hashval) : Block :=
  let b := newBlock txs prev in
  {| transactions := transactions b;
     previousHash := previousHash b;
     nonce := None;
     hash := HUndefined |}.

(** Modelled from the spec: the genesis block built by the constructor of
    the base [Blockchain] of [blockchain.js]: no transactions, a [null]
    previous hash. *)
Definition genesisBlock : Block := newBlock [] HNull.

(** [new MineableChain()]. *)
Definition newMineableChain : Chain :=
  {| blocks := [genesisBlock];
     difficulty := 2;
     reward := 5;
     pendingTransactions := [] |}.

(** Modelled from the spec: [Blockchain.prototype.getHeadBlock()] of
    [blockchain.js], the last block; [None] is [undefined]. *)
Definition getHeadBlock (c : Chain) : option Block := last (blocks c).

Definition addTransaction (c : Chain) (t : Transaction) : Chain :=
  {| blocks := blocks c;
     difficulty := difficulty c;
     reward := reward c;
     pendingTransactions := pendingTransactions c ++ [t] |}.

(** [leadingZeros(str, len)]: ['0'.repeat(len)] is evaluated first and
    throws a [RangeError] on a negative count; [str.slice] throws a
    [TypeError] when [str] is [null] or [undefined]. *)
Definition leadingZeros (str : hashval) (len : Z) : result bool :=
  if (len <? 0)%Z then Throw RangeError
  else match str with
       | HStr s => Ok (String.eqb (zeros (Z.to_nat len)) (slice0 (Z.to_nat len) s))
       | HUndefined | HNull => Throw TypeError
       end.

(** The loop guard of [mine] is [!(accepted)], with [accepted] the value
    of [newBlock.hash && leadingZeros(newBlock.hash, this.difficulty)]. *)
Definition accepted (b : Block) (d : Z) : result bool :=
  if truthy_hash (hash b) then leadingZeros (hash b) d else Ok false.

(** [while (!accepted) newBlock.calculateHash(i++)]. *)
Fixpoint pow_search (fuel : nat) (d : Z) (b : Block) (i : Z) : option (result Block) :=
  match accepted b d with
  | Throw e => Some (Throw e)
  | Ok true => Some (Ok b)
  | Ok false =>
      match fuel with
      | O => None
      | S fuel' => pow_search fuel' d (calculateHash b i) (i + 1)
      end
  end.

(** The first four statements of [mine]: the reward transaction is pushed
    on the queue, the block is built over that array and the current head's
    hash, and the chain gets a fresh empty queue. Reading [.hash] of a
    missing head block throws. *)
Definition mine_begin (privateKey : string) (c : Chain) : result (Chain * Block) :=
  let rewardTransaction := MineableTransaction privateKey None (reward c) in
  let queue := pendingTransactions c ++ [rewardTransaction] in
  match getHeadBlock c with
  | None => Throw TypeError
  | Some head =>
      Ok ({| blocks := blocks c;
             difficulty := difficulty c;
             reward := reward c;
             pendingTransactions := [] |},
          MineableBlock queue (hash head))
  end.

(** [this.blocks.push(newBlock)]. *)
Definition mine_end (c : Chain) (b : Block) : Chain :=
  {| blocks := blocks c ++ [b];
     difficulty := difficulty c;
     reward := reward c;
     pendingTransactions := pendingTransactions c |}.

Definition mine (fuel : nat) (privateKey : string) (c : Chain) : option (result Chain) :=
  match mine_begin privateKey c with
  | Throw e => Some (Throw e)
  | Ok (c1, b0) =>
      match pow_search fuel (difficulty c1) b0 0 with
      | None => None
      | Some (Throw e) => Some (Throw e)
      | Some (Ok b) => Some (Ok (mine_end c1 b))
      end
  end.

(** The ledger replay of [isValidMineableChain]. The accumulator is one
    object, [{ isValid: true }], to which the balances are added as
    further properties; a missing property reads as [undefined]. (The
    properties every object inherits, such as [toString], are not
    modelled: account keys are public keys.) *)
Definition prop (state : gmap string cell) (k : string) : cell :=
  default CUndefined (state !! k).

Definition initialState : gmap string cell := {[ "isValid" := CBool true ]}.

(** The [if (txn.source) { ... }] statement. *)
Definition debit (state : gmap string cell) (txn : Transaction)
    : gmap string cell :=
  if truthy_opt (source txn) then
    let src := default "" (source txn) in
    if truthy (prop state src) && cell_ge (prop state src) (amount txn)
    then <[src := cell_sub (prop state src) (amount txn)]> state
    else if (amount txn =? 0)%Z
         then <[src := CNum (amount txn)]> state
         else <["isValid" := CBool false]> state
  else state.

(** [if (state.isValid) state[txn.recipient] += txn.amount]. *)
Definition credit (state : gmap string cell) (txn : Transaction)
    : gmap string cell :=
  if truthy (prop state "isValid")
  then <[recipient txn := cell_add (prop state (recipient txn)) (amount txn)]> state
  else state.

(** The callback of [reduce]; its first statement hands an invalid
    accumulator back untouched. *)
Definition replayStep (state : gmap string cell) (txn : Transaction)
    : gmap string cell :=
  if negb (truthy (prop state "isValid")) then state
  else credit (debit state txn) txn.

(** [blocks.map(block => block.transactions).reduce((acc, t) => acc.concat(t), [])] *)
Definition allTransactions (c : Chain) : list Transaction :=
  foldl (λ acc blckTnxs, acc ++ blckTnxs) [] (map transactions (blocks c)).

Definition enoughFunds (c : Chain) : gmap string cell :=
  foldl replayStep initialState (allTransactions c).

Definition isReward (txn : Transaction) : bool :=
  bool_decide (source txn = None).

Definition oneRewardPerBlock (c : Chain) : bool :=
  negb (includes true
    (map (λ block, (1 <? length (List.filter isReward (transactions block)))%nat)
         (blocks c))).

Definition notTamperedReward (c : Chain) : bool :=
  (length
     (List.filter (λ res : list Transaction, negb (length res =? 0)%nat)
        (map (λ block,
                List.filter
                  (λ txn, isReward txn && negb (amount txn =? reward c)%Z)
                  (transactions block))
             (blocks c))) =? 0)%nat.

Definition validHashes (c : Chain) : result bool :=
  checks ← map_result (λ block, leadingZeros (hash block) (difficulty c))
                      (drop 1 (blocks c));
  Ok (negb (includes false checks)).

(** [a && b && c && v] with boolean [a], [b], [c]: the value is [false]
    or the last operand. *)
Definition and_last (b : bool) (v : cell) : cell :=
  if b then v else CBool false.

Definition isValidMineableChain (c : Chain) : result cell :=
  vh ← validHashes c;
  Ok (and_last (vh && oneRewardPerBlock c && notTamperedReward c)
               (prop (enoughFunds c) "isValid")).

(** *** validation.js *)

Definition isValidTransaction (t : Transaction) : bool :=
  if (amount t <? 0)%Z then false
  else verify (source t)
              (str_of_null (source t) +:+ recipient t +:+ num_to_string (amount t))
              (signature t).

Definition isValidBlock (b : Block) : bool :=
  let transactionValidity :=
    negb (includes false (map isValidTransaction (transactions b))) in
  let blockValidity := bool_decide (verifyHash b = hash b) in
  transactionValidity && blockValidity.

(** [genesis] is [undefined] on an empty [blocks] array and reading its
    [previousHash] throws a [TypeError]. [pHashes[index + 1]] reads
    [undefined] out of range. *)
Definition isValidChain (c : Chain) : result bool :=
  let hashes := map hash (blocks c) in
  let pHashes := map previousHash (blocks c) in
  let notNullHash := negb (existsb (λ h, bool_decide (h = HNull)) hashes) in
  let validBlocks := negb (includes false (map isValidBlock (blocks c))) in
  match blocks c with
  | [] => Throw TypeError
  | genesis :: _ =>
      if negb (bool_decide (previousHash genesis = HNull))
         || negb (length (transactions genesis) =? 0)%nat
      then Ok false
      else
        let matchingHashes :=
          negb (includes false
            (imap (λ index h,
                     bool_decide (h = default HUndefined (pHashes !! (index + 1)%nat)))
                  (take (length hashes - 1) hashes))) in
        Ok (notNullHash && validBlocks && matchingHashes)
  end.

End Engine.

(** ** A small concrete provider

    Used to run the engine on concrete inputs. Keys are short strings,
    the public key of [k] is ["02" ++ k], a signature spells out key and
    message, and a digest starts with ["00"] for one nonce in three. *)

Definition demoSigning : Signing :=
  {| getPublicKey := λ k, "02" +:+ k;
     sign := λ k m, k +:+ "/" +:+ m;
     verify := λ pk m s,
       match pk with
       | Some (String "0" (String "2" k)) => String.eqb s (k +:+ "/" +:+ m)
       | _ => false
       end |}.

Definition demoHashing : Hashing :=
  {| digest := λ txs prev n,
       match n with
       | Some n =>
           let body := pretty (Z.of_nat (length txs)) +:+ "x" +:+ pretty n in
           if ((n + Z.of_nat (length txs)) mod 3 =? 2)%Z
           then "00" +:+ body else "c" +:+ body
       | None => "f"
       end;
     initialNonce := 0 |}.

(** The end-to-end scenario with the concrete provider: miner ["ka"]
    mines on a new chain, then sends 3 to ["02kc"], and miner ["kb"] mines
    the block with that transfer. *)
Definition demoFirstMine : option (result Chain) :=
  @mine demoSigning demoHashing 10 "ka" (@newMineableChain demoHashing).

Definition demoTransfer : Transaction :=
  @MineableTransaction demoSigning "ka" (Some "02kc") 3.

Definition demoScenario : option (result Chain) :=
  match demoFirstMine with
  | Some (Ok c1) =>
      @mine demoSigning demoHashing 10 "kb" (addTransaction c1 demoTransfer)
  | other => other
  end.

(** The chain a run ended with. *)
Definition chain_of (o : option (result Chain)) : Chain :=
  match o with
  | Some (Ok c) => c
  | _ => mkChain [] 0 0 []
  end.

(** A chain of one block whose [previousHash] property is missing
    ([new Block([])]): no transactions, and the hash is the block's digest. *)
Definition demoMissingGenesis : Block :=
  mkBlock [] HUndefined (Some 0%Z)
          (HStr (@digest demoHashing [] HUndefined (Some 0%Z))).

Definition demoMissingPreviousHash : Chain :=
  mkChain [demoMissingGenesis] 2 5 [].

(** ** Vocabulary of the statements *)

(** A digest starts with at least [d] characters ['0']. *)
Definition meetsDifficulty (d : Z) (s : string) : Prop :=
  ∃ rest, s = zeros (Z.to_nat d) +:+ rest.

(** The test the mining loop applies to a digest: it is a non-empty string
    and starts with [d] zeros. *)
Definition acceptable (d : Z) (s : string) : Prop :=
  s ≠ "" ∧ meetsDifficulty d s.

(** The ways in which [isValidChain] finds a chain with genesis block [g]
    at fault. The tests of the code are [!== null] on the genesis block's
    previous hash, which a missing property fails to pass, and
    [includes(null)] over the hashes of all blocks, the genesis block's
    among them. *)
Section Defects.
Context `{Signing} `{Hashing}.

Definition brokenGenesis (g : Block) : Prop :=
  previousHash g ≠ HNull ∨ transactions g ≠ [].

Definition nullHash (c : Chain) : Prop :=
  ∃ b, b ∈ blocks c ∧ hash b = HNull.

Definition brokenLink (c : Chain) : Prop :=
  ∃ i b b', blocks c !! i = Some b ∧ blocks c !! S i = Some b' ∧
            hash b ≠ previousHash b'.

Definition invalidBlock (c : Chain) : Prop :=
  ∃ b, b ∈ blocks c ∧ isValidBlock b = false.

Definition chainFault (c : Chain) (g : Block) : Prop :=
  brokenGenesis g ∨ nullHash c ∨ brokenLink c ∨ invalidBlock c.

(** The same list in the words of the specification, where a hash is
    absent when it is [null] or missing, the genesis block is at fault for
    a previous hash that is not absent, and only the blocks after the
    genesis block are looked at for an absent hash. *)
Definition absent (h : hashval) : Prop := h = HNull ∨ h = HUndefined.

Definition statedDefect (c : Chain) (g : Block) : Prop :=
  (¬ absent (previousHash g) ∨ transactions g ≠ []) ∨
  (∃ b, b ∈ drop 1 (blocks c) ∧ absent (hash b)) ∨
  brokenLink c ∨ invalidBlock c.

End Defects.

(** The message [isValidTransaction] verifies a signature against: the
    stored source ([null] printed as ["null"]), the stored recipient and
    the amount in decimal. *)
Definition canonicalMessage (t : Transaction) : string :=
  str_of_null (source t) +:+ recipient t +:+ num_to_string (amount t).

(** The callback without its early return: every transaction goes
    through the debit and the credit statements. *)
Definition replayStepScanning (state : gmap string cell) (txn : Transaction)
    : gmap string cell :=
  credit (debit state txn) txn.

(** ** The ledger replay as the specification words it

    A second definition, written from the description of the replay and
    not from the code, to compare [enoughFunds] with: balances are kept in
    a map from identity to amount that starts empty; a present source with
    a tracked balance of at least the amount is debited; otherwise a zero
    amount records a balance of 0 for the source; otherwise the replay is
    marked invalid and goes on; the recipient is then credited, its balance
    being created at the amount when it had none. *)
Definition referenceStep (st : bool * gmap string Z) (txn : Transaction)
    : bool * gmap string Z :=
  let '(valid, balances) := st in
  let '(valid1, balances1) :=
    match source txn with
    | None => (valid, balances)
    | Some src =>
        match balances !! src with
        | Some n =>
            if (amount txn <=? n)%Z then (valid, <[src := (n - amount txn)%Z]> balances)
            else if (amount txn =? 0)%Z then (valid, <[src := 0%Z]> balances)
            else (false, balances)
        | None =>
            if (amount txn =? 0)%Z then (valid, <[src := 0%Z]> balances)
            else (false, balances)
        end
    end in
  let credited :=
    match balances1 !! recipient txn with
    | Some n => (n + amount txn)%Z
    | None => amount txn
    end in
  (valid1, <[recipient txn := credited]> balances1).

Definition referenceReplay (c : Chain) : bool * gmap string Z :=
  foldl referenceStep (true, ∅) (allTransactions c).

(** ** Vocabulary of the further properties *)

(** No key but the flag holds a number yet. *)
Definition unfunded (state : gmap string cell) : Prop :=
  ∀ k, k ≠ "isValid" → prop state k = CUndefined ∨ prop state k = CNaN.

(** Every number stored in the accumulator is at least 0. *)
Definition nonNegative (state : gmap string cell) : Prop :=
  ∀ k n, to_number (prop state k) = Some n → (0 ≤ n)%Z.

(** What holds of a chain on which only [mine] was called: nothing is
    queued, the three checks on blocks pass, and every transaction is a
    reward to a key other than the flag's name. *)
Definition minedOnly (c : Chain) : Prop :=
  pendingTransactions c = [] ∧
  validHashes c = Ok true ∧
  oneRewardPerBlock c = true ∧
  notTamperedReward c = true ∧
  ∀ t, t ∈ allTransactions c → source t = None ∧ recipient t ≠ "isValid".

(** [mine] called once for each key of [keys], in order, stopping at the
    first call that does not return. *)
Fixpoint mineEach `{Signing} `{Hashing}
    (fuel : nat) (keys : list string) (c : Chain) : option (result Chain) :=
  match keys with
  | [] => Some (Ok c)
  | k :: keys' =>
      match mine fuel k c with
      | Some (Ok c1) => mineEach fuel keys' c1
      | other => other
      end
  end.

(** ** [breakChain]

    [breakChain(blockchain)] draws a key and, for every block, a number,
    and writes them into the chain in place. The key drawn by
    [signing.createPrivateKey()] is the argument [privateKey]; [rolls i] is
    the integer [Math.floor(Math.random() * 10000 % 558)] evaluates to for
    the block at index [i]. The function returns the chain it leaves
    behind. Transactions are kept by value: the queue is left as it is (a
    transaction object that sits both in a block and in the queue would be
    rewritten in both). *)
Definition breakTransaction (myKey : string) (txn : Transaction) : Transaction :=
  {| source := source txn;
     recipient := myKey;
     amount := amount txn;
     signature := signature txn |}.

Definition breakBlock (myKey : string) (roll : Z) (block : Block) : Block :=
  {| transactions := map (breakTransaction myKey) (transactions block);
     previousHash := previousHash block;
     nonce := Some roll;
     hash := hash block |}.

Definition breakChain `{Signing} (privateKey : string) (rolls : nat → Z) (c : Chain)
    : Chain :=
  let myKey := getPublicKey privateKey in
  {| blocks := imap (λ i block, breakBlock myKey (rolls i) block) (blocks c);
     difficulty := difficulty c;
     reward := reward c;
     pendingTransactions := pendingTransactions c |}.

(** ** addressing.js *)

Definition NAMESPACE : string := "5f4d76".

(** The [PREFIXES] table. *)
Definition PREFIXES_COLLECTION : string := "00".
Definition PREFIXES_MOJI : string := "01".
Definition PREFIXES_SIRE_LISTING : string := "02".
Definition PREFIXES_OFFER : string := "03".

(** [get512Hash(str)] with its default format: the hexadecimal SHA-512
    digest computed by Node's [crypto] module. *)
Class Sha512 : Type := {
  get512Hash : string → string
}.

Section Addressing.
Context `{Sha512}.

Definition getCollectionAddress (publicKey : string) : string :=
  NAMESPACE +:+ PREFIXES_COLLECTION +:+ slice0 62 (get512Hash publicKey).

Definition getMojiAddress (ownerKey dna : string) : string :=
  NAMESPACE +:+ PREFIXES_MOJI +:+ slice0 8 (get512Hash ownerKey)
            +:+ slice0 54 (get512Hash dna).

Definition getSireAddress (ownerKey : string) : string :=
  NAMESPACE +:+ PREFIXES_SIRE_LISTING +:+ slice0 62 (get512Hash ownerKey).

End Addressing.

(** The argument of [isValidAddress]: [undefined], [null], a string, or
    any other value (a number, a boolean, an object). *)
Inductive jsvalue : Type :=
  | JUndefined
  | JNull
  | JString (s : string)
  | JOther.

(** [isValidAddress(address)]. Reading [address.length] throws on
    [undefined] and [null]; for a value that is not a string [isString] is
    [false] and so is the result. The length of a string is its number of
    characters, one per code unit as in an address of hexadecimal digits. *)
Definition isValidAddress (address : jsvalue) : result bool :=
  match address with
  | JUndefined | JNull => Throw TypeError
  | JOther => Ok false
  | JString s =>
      let isString := true in
      let hasProperLength := (String.length s =? 70)%nat in
      let hasCryptomojiNamespace := isString && String.eqb (slice0 6 s) NAMESPACE in
      Ok (isString && hasProperLength && hasCryptomojiNamespace)
  end.

(** A digest function with 128-character digests, to run the address
    builders on: the input, cut or padded with ['a'] to 128 characters. *)
Fixpoint padTo (n : nat) (s : string) : string :=
  match n with
  | O => ""
  | S n' =>
      match s with
      | String a s' => String a (padTo n' s')
      | EmptyString => String "a"%char (padTo n' "")
      end
  end.

Definition demoSha512 : Sha512 := {| get512Hash := padTo 128 |}.

(** ** models/cryptomoji.js *)

(** [str[i]] where the number [i] is kept as the integer [2 * i]: a
    one-character string when [i] is an integer index inside the string,
    [undefined] (here [None]) otherwise. Strings hold one character per
    code unit, as DNA strings of hexadecimal digits do. *)
Definition charAtHalf (str : string) (twice_i : Z) : option string :=
  if Z.even twice_i && (0 <=? twice_i)%Z then
    match String.get (Z.to_nat (twice_i / 2)) str with
    | Some a => Some (String a "")
    | None => None
    end
  else None.

(** [a + b] for two such values, as the text that [child += a + b]
    appends: two strings are concatenated, [undefined] next to a string
    prints as ["undefined"], and [undefined + undefined] is [NaN]. *)
Definition plusChars (a b : option string) : string :=
  match a, b with
  | Some x, Some y => x +:+ y
  | Some x, None => x +:+ "undefined"
  | None, Some y => "undefined" +:+ y
  | None, None => "NaN"
  end.

(** [while (i-- > 0) child += sire[i] + breeder[i]]: the test reads [i]
    before the decrement, the body after it. [i] starts at
    [sire.length / 2], a whole or a half number. *)
Fixpoint recombineLoop (fuel : nat) (twice_i : Z) (sire breeder child : string)
    : string :=
  match fuel with
  | O => child
  | S fuel' =>
      if (0 <? twice_i)%Z then
        let twice_i' := (twice_i - 2)%Z in
        recombineLoop fuel' twice_i' sire breeder
          (child +:+ plusChars (charAtHalf sire twice_i') (charAtHalf breeder twice_i'))
      else child
  end.

(** [recombineDNA(sire, breeder)]. The loop runs at most [sire.length]
    times, which is the fuel given. *)
Definition recombineDNA (sire breeder : string) : string :=
  recombineLoop (String.length sire) (Z.of_nat (String.length sire)) sire breeder "".

(** [../services/prng]: [getPrng(seed)] returns a generator; [draws seed j]
    is the text JavaScript prints for the number that the generator's call
    number [j], counted from 0, returns. *)
Class Prng : Type := {
  draws : string → nat → string
}.

(** [while (i-- > 0) nonce = randomizer(10000)], with [count] the number of
    rounds left and [calls] the calls made so far; [nonce] starts
    [undefined]. *)
Fixpoint drawLoop (randomizer : nat → string) (count calls : nat)
    (nonce : option string) : option string :=
  match count with
  | O => nonce
  | S count' => drawLoop randomizer count' (S calls) (Some (randomizer calls))
  end.

(** [createDNA(index, seed)] of a moji owned by [owner]; a missing seed is
    [None]. The digest is the one of [get512Hash]. *)
Definition createDNA `{Sha512} `{Prng} (owner : string) (index : Z)
    (seed : option string) : string :=
  let randomizer := draws (if truthy_opt seed then default "" seed else owner) in
  let nonce := drawLoop randomizer (Z.to_nat index) 0 None in
  slice0 36 (get512Hash (owner +:+ default "undefined" nonce)).

(** A generator to run [createDNA] on: draw [j] of seed [s] prints as the
    length of [s] plus [j]. *)
Definition demoPrng : Prng :=
  {| draws := λ seed j, pretty (Z.of_nat (String.length seed + j)) |}.

(** The text of [count] times ["NaN"]. *)
Fixpoint nans (count : nat) : string :=
  match count with
  | O => ""
  | S count' => "NaN" +:+ nans count'
  end.

(** The text the loop of [recombineDNA] appends for the whole indices
    below [m], from the highest down to 0. *)
Fixpoint pairsDown (m : nat) (sire breeder : string) : string :=
  match m with
  | O => ""
  | S m' =>
      plusChars (charAtHalf sire (2 * Z.of_nat m')) (charAtHalf breeder (2 * Z.of_nat m'))
      +:+ pairsDown m' sire breeder
  end.

(** ** Concrete inputs for the further properties *)

Definition demoReward (key : string) (amt : Z) : Transaction :=
  mkTransaction None key amt "sig".

Definition demoGenesis : Block := mkBlock [] HNull (Some 0%Z) (HStr "c0").

(** A chain whose second block holds two rewards. *)
Definition demoTwoRewards : Chain :=
  mkChain [demoGenesis;
           mkBlock [demoReward "02ka" 5; demoReward "02kb" 5]
                   (HStr "c0") (Some 1%Z) (HStr "00a1")]
          2 5 [].

(** A chain whose reward is 7 where the chain pays 5. *)
Definition demoTamperedReward : Chain :=
  mkChain [demoGenesis;
           mkBlock [demoReward "02ka" 7] (HStr "c0") (Some 1%Z) (HStr "00a1")]
          2 5 [].

(** A chain with a transfer of a negative amount. *)
Definition demoNegativeAmount : Chain :=
  mkChain [demoGenesis;
           mkBlock [mkTransaction (Some "02ka") "02kb" (-1) "sig"]
                   (HStr "c0") (Some 1%Z) (HStr "00a1")]
          2 5 [].

(** A chain whose only transaction is a transfer of 0. *)
Definition demoZeroTransfer : Chain :=
  mkChain [demoGenesis;
           mkBlock [mkTransaction (Some "02ka") "02kb" 0 "sig"]
                   (HStr "c0") (Some 1%Z) (HStr "00a1")]
          2 5 [].

(** An accumulator in which two keys hold numbers. *)
Definition demoFunded : gmap string cell :=
  <["02kb" := CNum 1]> (<["02ka" := CNum 5]> initialState).

(** The scenario chain mined once more. *)
Definition demoThirdMine : option (result Chain) :=
  @mine demoSigning demoHashing 10 "kc" (chain_of demoScenario).

(** A new chain with a hand-made reward in its queue, mined. *)
Definition demoQueuedReward : Chain :=
  addTransaction (@newMineableChain demoHashing)
    (@MineableTransaction demoSigning "kc" None 5).

Definition demoQueuedRewardMined : option (result Chain) :=
  @mine demoSigning demoHashing 10 "ka" demoQueuedReward.

(** A chain with a negative difficulty. *)
Definition demoNegativeDifficulty : Chain :=
  mkChain [demoGenesis] (-1) 5 [].

(** A chain in which a key spends: ["02ka"] first sends 0, is then paid a
    reward of 5, and sends 3. *)
Definition demoDebited : Chain :=
  mkChain [demoGenesis;
           mkBlock [mkTransaction (Some "02ka") "02kb" 0 "sig"; demoReward "02ka" 5]
                   (HStr "c0") (Some 1%Z) (HStr "00a1");
           mkBlock [mkTransaction (Some "02ka") "02kb" 3 "sig"]
                   (HStr "00a1") (Some 2%Z) (HStr "00b2")]
          2 5 [].

(** The integers that JavaScript numbers hold exactly
    ([Number.MIN_SAFE_INTEGER] to [Number.MAX_SAFE_INTEGER]). Sums and
    differences of such integers that stay in this range are computed
    without rounding, as [cell_add] and [cell_sub] compute them. *)
Definition safeInteger (z : Z) : Prop :=
  (- (2 ^ 53 - 1) ≤ z ≤ 2 ^ 53 - 1)%Z.

(** * Properties *)

(** ** Strings of zeros *)

Lemma zeros_prefix (n : nat) (s : string) :
  String.eqb (zeros n) (slice0 n s) = true ↔ ∃ rest, s = zeros n +:+ rest.
Proof.
  unfold slice0. rewrite String.eqb_eq. revert s.
  induction n as [|n IH]; intros s; simpl.
  - split; [intros _; exists s; reflexivity|].
    intros _. destruct s; reflexivity.
  - destruct s as [|a s]; simpl.
    + split; [discriminate|]. intros [rest Hrest]. discriminate.
    + split.
      * intros Heq. injection Heq as <- Heq.
        apply IH in Heq as [rest ->]. exists rest. reflexivity.
      * intros [rest Hrest]. injection Hrest as -> Hrest.
        f_equal. apply IH. exists rest. exact Hrest.
Qed.

Lemma zeros_length (n : nat) : String.length (zeros n) = n.
Proof. induction n; simpl; congruence. Qed.

(** ** Proof of work *)

Section Mining.
Context `{Signing} `{Hashing}.

Lemma leadingZeros_true (h : hashval) (d : Z) :
  leadingZeros h d = Ok true ↔
  (0 ≤ d)%Z ∧ ∃ s, h = HStr s ∧ meetsDifficulty d s.
Proof.
  unfold leadingZeros, meetsDifficulty.
  destruct (Z.ltb_spec d 0) as [Hneg|Hpos].
  - split; [discriminate|]. intros [Hd _]. lia.
  - destruct h as [| |s].
    + split; [discriminate|]. intros (_ & s & Hs & _). discriminate.
    + split; [discriminate|]. intros (_ & s & Hs & _). discriminate.
    + split.
      * intros Hok. injection Hok as Hok. apply zeros_prefix in Hok.
        split; [exact Hpos|]. exists s. split; [reflexivity|exact Hok].
      * intros (_ & s' & Hs & Hpre). injection Hs as <-.
        f_equal. apply zeros_prefix. exact Hpre.
Qed.

Lemma truthy_str_true (s : string) : truthy_str s = true ↔ s ≠ "".
Proof.
  unfold truthy_str. rewrite negb_true_iff.
  destruct (String.eqb_spec s ""); split; congruence.
Qed.

Lemma accepted_true (b : Block) (d : Z) :
  accepted b d = Ok true ↔
  (0 ≤ d)%Z ∧ ∃ s, hash b = HStr s ∧ acceptable d s.
Proof.
  unfold accepted, acceptable. destruct (truthy_hash (hash b)) eqn:Ht.
  - rewrite leadingZeros_true. split.
    + intros (Hd & s & Hs & Hm). split; [exact Hd|]. exists s.
      rewrite Hs in Ht. simpl in Ht. apply truthy_str_true in Ht. auto.
    + intros (Hd & s & Hs & _ & Hm). eauto.
  - split; [discriminate|]. intros (_ & s & Hs & Hne & _).
    rewrite Hs in Ht. simpl in Ht. apply truthy_str_true in Hne. congruence.
Qed.

Lemma calculateHash_again (b : Block) (i j : Z) :
  calculateHash (calculateHash b i) j = calculateHash b j.
Proof. reflexivity. Qed.

(** What the search returns: the block it was given if that one is already
    accepted, otherwise the block rehashed with the least nonce from [i]
    on that is accepted. *)
Lemma pow_search_ok (fuel : nat) (d : Z) (b b' : Block) (i : Z) :
  pow_search fuel d b i = Some (Ok b') →
  accepted b' d = Ok true ∧
  (b' = b ∨
   ∃ n, (i ≤ n)%Z ∧ b' = calculateHash b n ∧ accepted b d = Ok false ∧
        ∀ m, (i ≤ m < n)%Z → accepted (calculateHash b m) d = Ok false).
Proof.
  revert b i. induction fuel as [|fuel IH]; intros b i; simpl.
  - destruct (accepted b d) as [[|]|e] eqn:Hacc; try discriminate.
    intros Hb. injection Hb as <-. auto.
  - destruct (accepted b d) as [[|]|e] eqn:Hacc; try discriminate.
    + intros Hb. injection Hb as <-. auto.
    + intros Hs. apply IH in Hs as [Hok [->|(n & Hn & -> & Hfirst & Hlt)]].
      * split; [exact Hok|]. right. exists i.
        repeat split; [lia|]. intros m Hm. lia.
      * split; [exact Hok|]. right. exists n.
        rewrite calculateHash_again. repeat split; [lia|].
        intros m Hm. destruct (decide (m = i)) as [->|Hne].
        -- exact Hfirst.
        -- rewrite <- (calculateHash_again b i m). apply Hlt. lia.
Qed.

(** The search finds an accepted nonce when there is one. *)
Lemma pow_search_finds (d : Z) (b : Block) (i : Z) (k : nat) :
  (0 ≤ d)%Z →
  accepted (calculateHash b (i + Z.of_nat k)) d = Ok true →
  ∃ b', pow_search (S k) d b i = Some (Ok b').
Proof.
  intros Hd. revert b i. induction k as [|k IH]; intros b i Hacc.
  - simpl. destruct (accepted b d) as [[|]|e] eqn:Hb; eauto.
    + replace (i + Z.of_nat 0)%Z with i in Hacc by lia. rewrite Hacc. eauto.
    + unfold accepted, leadingZeros in Hb.
      destruct (Z.ltb_spec d 0); [lia|]. repeat case_match; discriminate.
  - cbn [pow_search]. destruct (accepted b d) as [[|]|e] eqn:Hb; eauto.
    + apply IH. rewrite calculateHash_again.
      replace (i + 1 + Z.of_nat k)%Z with (i + Z.of_nat (S k))%Z by lia.
      exact Hacc.
    + unfold accepted, leadingZeros in Hb.
      destruct (Z.ltb_spec d 0); [lia|]. repeat case_match; discriminate.
Qed.

(** The freshly built mineable block has no hash, so the loop rehashes at
    least once. *)
Lemma accepted_MineableBlock (txs : list Transaction) (prev : hashval) (d : Z) :
  accepted (MineableBlock txs prev) d = Ok false.
Proof. reflexivity. Qed.

(** Everything a returning call of [mine] determines. *)
Lemma mine_inv (fuel : nat) (k : string) (c c' : Chain) :
  mine fuel k c = Some (Ok c') →
  ∃ head n,
    getHeadBlock c = Some head ∧ (0 ≤ n)%Z ∧
    let b0 := MineableBlock
                (pendingTransactions c ++ [MineableTransaction k None (reward c)])
                (hash head) in
    c' = {| blocks := blocks c ++ [calculateHash b0 n];
            difficulty := difficulty c;
            reward := reward c;
            pendingTransactions := [] |} ∧
    accepted (calculateHash b0 n) (difficulty c) = Ok true ∧
    ∀ m, (0 ≤ m < n)%Z → accepted (calculateHash b0 m) (difficulty c) = Ok false.
Proof.
  unfold mine, mine_begin. destruct (getHeadBlock c) as [head|]; [|discriminate].
  cbn [difficulty].
  destruct (pow_search _ _ _ _) as [[b|e]|] eqn:Hs; try discriminate.
  intros Hc. injection Hc as <-.
  apply pow_search_ok in Hs as [Hok [->|(n & Hn & -> & _ & Hlt)]].
  - rewrite accepted_MineableBlock in Hok. discriminate.
  - exists head, n. repeat split; assumption.
Qed.

(** [mine] returns as soon as some nonce gives an acceptable digest. *)
Lemma mine_terminates (k : string) (c : Chain) (head : Block) (n : nat) :
  getHeadBlock c = Some head →
  (0 ≤ difficulty c)%Z →
  acceptable (difficulty c)
    (digest (pendingTransactions c ++ [MineableTransaction k None (reward c)])
            (hash head) (Some (Z.of_nat n))) →
  ∃ c', mine (S n) k c = Some (Ok c').
Proof.
  intros Hhead Hd Hacc. unfold mine, mine_begin. rewrite Hhead. cbn [difficulty].
  set (b0 := MineableBlock _ _).
  destruct (pow_search_finds (difficulty c) b0 0 n Hd) as [b' Hb'].
  - apply accepted_true. split; [exact Hd|]. eexists. split; [reflexivity|].
    exact Hacc.
  - rewrite Hb'. eauto.
Qed.

(** C3. When [mine] returns, it has appended one block whose hash starts
    with at least [difficulty] characters ['0']; that hash is the digest
    for the block's nonce, and the nonce is the first one, counting up
    from 0, whose digest the loop accepts. *)
Theorem mine_meets_difficulty (fuel : nat) (k : string) (c c' : Chain) :
  mine fuel k c = Some (Ok c') →
  ∃ b s n,
    blocks c' = blocks c ++ [b] ∧
    hash b = HStr s ∧
    (0 ≤ difficulty c)%Z ∧ meetsDifficulty (difficulty c) s ∧
    nonce b = Some n ∧ (0 ≤ n)%Z ∧
    s = digest (transactions b) (previousHash b) (Some n) ∧
    ∀ m, (0 ≤ m < n)%Z →
      ¬ acceptable (difficulty c) (digest (transactions b) (previousHash b) (Some m)).
Proof.
  intros Hm. apply mine_inv in Hm as (head & n & _ & Hn & -> & Hok & Hlt).
  apply accepted_true in Hok as (Hd & s & Hs & _ & Hz).
  eexists _, s, n. cbn [blocks]. split; [reflexivity|].
  injection Hs as Hs. cbn.
  repeat split; try assumption; try (by rewrite <- Hs).
  intros m Hmn Hacc. specialize (Hlt m Hmn).
  assert (accepted
            (calculateHash
               (MineableBlock
                  (pendingTransactions c ++ [MineableTransaction k None (reward c)])
                  (hash head)) m) (difficulty c) = Ok true) as Hyes.
  { apply accepted_true. split; [exact Hd|]. eexists. split; [reflexivity|].
    exact Hacc. }
  congruence.
Qed.

(** C7. [mine] puts the reward transaction after the queued ones, builds
    the block over that sequence and the head's hash, and empties the queue
    before the search starts; on return the queue is empty, [blocks] has
    gained that one block at the end, and the policy is unchanged. *)
Theorem mine_frame (fuel : nat) (k : string) (c c' : Chain) :
  mine fuel k c = Some (Ok c') →
  ∃ head c1 b0 b,
    getHeadBlock c = Some head ∧
    mine_begin k c = Ok (c1, b0) ∧
    transactions b0 = pendingTransactions c ++ [MineableTransaction k None (reward c)] ∧
    previousHash b0 = hash head ∧
    pendingTransactions c1 = [] ∧
    blocks c1 = blocks c ∧ difficulty c1 = difficulty c ∧ reward c1 = reward c ∧
    pow_search fuel (difficulty c1) b0 0 = Some (Ok b) ∧
    transactions b = transactions b0 ∧ previousHash b = previousHash b0 ∧
    pendingTransactions c' = [] ∧
    blocks c' = blocks c ++ [b] ∧
    difficulty c' = difficulty c ∧ reward c' = reward c.
Proof.
  unfold mine. destruct (mine_begin k c) as [[c1 b0]|e] eqn:Hb; [|discriminate].
  destruct (pow_search _ _ _ _) as [[b|e]|] eqn:Hs; try discriminate.
  intros Hc. injection Hc as <-.
  unfold mine_begin in Hb. destruct (getHeadBlock c) as [head|]; [|discriminate].
  injection Hb as <- <-. cbn [difficulty] in Hs.
  exists head, (mkChain (blocks c) (difficulty c) (reward c) []),
    (MineableBlock (pendingTransactions c ++ [MineableTransaction k None (reward c)])
                   (hash head)), b.
  assert (transactions b = pendingTransactions c ++ [MineableTransaction k None (reward c)]
          ∧ previousHash b = hash head) as [Ht Hp].
  { apply pow_search_ok in Hs as [_ [->|(n & _ & -> & _)]]; split; reflexivity. }
  repeat split; try reflexivity; assumption.
Qed.

(** C10. A new mineable chain has difficulty 2, reward 5 and an empty
    queue; neither [addTransaction] nor [mine] changes difficulty or
    reward, be it in the chain the search runs on or in the chain [mine]
    returns. (The validators are functions of the chain and have no chain
    to hand back.) *)
Theorem policy_is_fixed :
  (difficulty newMineableChain = 2%Z ∧
   reward newMineableChain = 5%Z ∧
   pendingTransactions newMineableChain = []) ∧
  (∀ c t, difficulty (addTransaction c t) = difficulty c ∧
          reward (addTransaction c t) = reward c) ∧
  (∀ k c c1 b0, mine_begin k c = Ok (c1, b0) →
          difficulty c1 = difficulty c ∧ reward c1 = reward c) ∧
  (∀ fuel k c c', mine fuel k c = Some (Ok c') →
          difficulty c' = difficulty c ∧ reward c' = reward c).
Proof.
  split; [repeat split|]. split; [intros; split; reflexivity|]. split.
  - intros k c c1 b0. unfold mine_begin.
    destruct (getHeadBlock c); [|discriminate].
    intros Hb. injection Hb as <- _. split; reflexivity.
  - intros fuel k c c' Hm.
    apply mine_inv in Hm as (head & n & _ & _ & -> & _). split; reflexivity.
Qed.

End Mining.

(** ** Structural validation *)

Section Structural.
Context `{Signing} `{Hashing}.

Lemma includes_false_lookup (l : list bool) :
  includes false l = true ↔ ∃ i, l !! i = Some false.
Proof.
  unfold includes. rewrite existsb_exists. split.
  - intros (x & Hin & Hx). destruct x; [discriminate|].
    apply list_elem_of_In, list_elem_of_lookup in Hin. exact Hin.
  - intros [i Hi]. exists false. split; [|reflexivity].
    apply list_elem_of_In, list_elem_of_lookup. eauto.
Qed.

Lemma includes_false_map {A : Type} (f : A → bool) (l : list A) :
  includes false (map f l) = true ↔ ∃ x, x ∈ l ∧ f x = false.
Proof.
  rewrite includes_false_lookup. change (map f l) with (f <$> l). split.
  - intros [i Hi]. rewrite list_lookup_fmap in Hi.
    destruct (l !! i) as [x|] eqn:Hx; [|discriminate]. injection Hi as Hi.
    exists x. split; [|exact Hi]. apply list_elem_of_lookup. eauto.
  - intros (x & Hin & Hx). apply list_elem_of_lookup in Hin as [i Hi].
    exists i. rewrite list_lookup_fmap, Hi. simpl. congruence.
Qed.

Lemma null_hash_invalid (b : Block) : hash b = HNull → isValidBlock b = false.
Proof.
  intros Hb. unfold isValidBlock, verifyHash. rewrite Hb.
  rewrite bool_decide_eq_false_2 by discriminate. apply andb_false_r.
Qed.

Lemma undefined_hash_invalid (b : Block) : hash b = HUndefined → isValidBlock b = false.
Proof.
  intros Hb. unfold isValidBlock, verifyHash. rewrite Hb.
  rewrite bool_decide_eq_false_2 by discriminate. apply andb_false_r.
Qed.

Lemma notNullHash_false (l : list Block) :
  existsb (λ h, bool_decide (h = HNull)) (map hash l) = true ↔
  ∃ b, b ∈ l ∧ hash b = HNull.
Proof.
  rewrite existsb_exists. split.
  - intros (h & Hin & Hh). apply bool_decide_eq_true in Hh. subst h.
    apply in_map_iff in Hin as (b & Hb & Hin). exists b.
    split; [apply list_elem_of_In; exact Hin|exact Hb].
  - intros (b & Hin & Hb). exists HNull. split; [|apply bool_decide_eq_true; reflexivity].
    apply in_map_iff. exists b. split; [exact Hb|apply list_elem_of_In; exact Hin].
Qed.

Lemma matchingHashes_false (l : list Block) :
  includes false
    (imap (λ index h,
             bool_decide (h = default HUndefined (map previousHash l !! (index + 1)%nat)))
          (take (length (map hash l) - 1) (map hash l))) = true ↔
  ∃ i b b', l !! i = Some b ∧ l !! S i = Some b' ∧ hash b ≠ previousHash b'.
Proof.
  rewrite includes_false_lookup.
  change (map hash l) with (hash <$> l).
  change (map previousHash l) with (previousHash <$> l).
  rewrite length_fmap. split.
  - intros [i Hi]. rewrite list_lookup_imap in Hi.
    destruct (take _ _ !! i) as [h|] eqn:Hh; [|discriminate].
    injection Hi as Hi. apply bool_decide_eq_false in Hi.
    apply lookup_take_Some in Hh as [Hh Hlt].
    rewrite list_lookup_fmap in Hh.
    destruct (l !! i) as [b|] eqn:Hb; [|discriminate]. injection Hh as <-.
    destruct (l !! S i) as [b'|] eqn:Hb'.
    + exists i, b, b'. repeat split; try assumption.
      intros Heq. apply Hi. rewrite list_lookup_fmap.
      replace (i + 1)%nat with (S i) by lia. rewrite Hb'. exact Heq.
    + apply lookup_ge_None in Hb'. lia.
  - intros (i & b & b' & Hb & Hb' & Hne). exists i.
    rewrite list_lookup_imap.
    assert (S i < length l)%nat as Hlt by (apply lookup_lt_is_Some; eauto).
    rewrite lookup_take_lt by lia. rewrite !list_lookup_fmap.
    replace (i + 1)%nat with (S i) by lia. rewrite Hb, Hb'. simpl.
    f_equal. apply bool_decide_eq_false. exact Hne.
Qed.

(** A genesis block with a [null] hash never passes: its recomputed digest
    is a string. *)
Lemma genesis_null_hash_rejected (c : Chain) (g : Block) (rest : list Block) :
  blocks c = g :: rest → hash g = HNull → isValidChain c = Ok false.
Proof.
  intros Hc Hg. unfold isValidChain. rewrite Hc.
  destruct (_ || _); [reflexivity|]. f_equal.
  cbn [map existsb]. rewrite Hg. reflexivity.
Qed.

(** C6, as the code has it. On a chain with genesis block [g],
    [isValidChain] answers [false] exactly when the genesis block's
    previous hash is anything but [null] (a missing one included) or the
    genesis block has a transaction, or some block, the genesis block
    included, has a [null] hash, or some block's hash differs from its
    successor's previous hash, or some block fails [isValidBlock]; in every
    other case it answers [true]. A chain whose genesis block has a [null]
    hash is always answered [false]. *)
Theorem isValidChain_false_iff (c : Chain) (g : Block) (rest : list Block) :
  blocks c = g :: rest →
  (isValidChain c = Ok false ↔ chainFault c g) ∧
  (¬ chainFault c g → isValidChain c = Ok true) ∧
  (hash g = HNull → isValidChain c = Ok false).
Proof.
  intros Hblocks.
  assert (isValidChain c = Ok false ↔ chainFault c g) as Hiff.
  { unfold isValidChain, chainFault, brokenGenesis, nullHash, brokenLink, invalidBlock.
    rewrite Hblocks.
    destruct (negb (bool_decide (previousHash g = HNull))
              || negb (length (transactions g) =? 0)%nat) eqn:Hgen.
    - split; [intros _|reflexivity]. left.
      apply orb_true_iff in Hgen as [Hp|Ht].
      + left. apply negb_true_iff, bool_decide_eq_false in Hp. exact Hp.
      + right. apply negb_true_iff, Nat.eqb_neq in Ht.
        intros Hnil. rewrite Hnil in Ht. apply Ht. reflexivity.
    - apply orb_false_iff in Hgen as [Hp Ht].
      apply negb_false_iff, bool_decide_eq_true in Hp.
      apply negb_false_iff, Nat.eqb_eq in Ht.
      apply nil_length_inv in Ht.
      split.
      + intros Hv. injection Hv as Hv.
        apply andb_false_iff in Hv as [Hv|Hv];
          [apply andb_false_iff in Hv as [Hv|Hv]|].
        * apply negb_false_iff in Hv.
          apply (notNullHash_false (g :: rest)) in Hv. auto.
        * apply negb_false_iff in Hv.
          apply (includes_false_map isValidBlock (g :: rest)) in Hv. auto.
        * apply negb_false_iff in Hv.
          apply (matchingHashes_false (g :: rest)) in Hv. auto.
      + intros [[Hg|Hg]|[Hn|[Hl|Hb]]]; try contradiction; f_equal.
        * apply andb_false_iff. left. apply andb_false_iff. left.
          apply negb_false_iff, (notNullHash_false (g :: rest)). exact Hn.
        * apply andb_false_iff. right.
          apply negb_false_iff, (matchingHashes_false (g :: rest)). exact Hl.
        * apply andb_false_iff. left. apply andb_false_iff. right.
          apply negb_false_iff, (includes_false_map isValidBlock (g :: rest)).
          exact Hb. }
  split; [exact Hiff|]. split.
  - intros Hno. destruct (isValidChain c) as [[|]|e] eqn:Hv; [reflexivity| |].
    + exfalso. apply Hno, Hiff. reflexivity.
    + exfalso. unfold isValidChain in Hv. rewrite Hblocks in Hv.
      destruct (_ || _) in Hv; discriminate.
  - intros Hg. apply Hiff. right. left. exists g. split; [|exact Hg].
    rewrite Hblocks. left.
Qed.

End Structural.

(** ** Transactions *)

Lemma append_cons (a : ascii) (s t : string) :
  String a s +:+ t = String a (s +:+ t).
Proof. reflexivity. Qed.

Lemma append_length (s t : string) :
  String.length (s +:+ t) = (String.length s + String.length t)%nat.
Proof.
  induction s as [|a s IH]; [reflexivity|].
  rewrite append_cons. cbn. f_equal. exact IH.
Qed.

Lemma append_inj_r (s1 s2 t : string) : s1 +:+ t = s2 +:+ t → s1 = s2.
Proof.
  revert s2. induction s1 as [|a s1 IH]; intros [|b s2] Heq.
  - reflexivity.
  - apply (f_equal String.length) in Heq.
    rewrite !append_length in Heq. cbn in Heq. lia.
  - apply (f_equal String.length) in Heq.
    rewrite !append_length in Heq. cbn in Heq. lia.
  - rewrite !append_cons in Heq. injection Heq as -> Heq.
    f_equal. apply IH. exact Heq.
Qed.

Section Transactions.
Context `{Signing} `{Hashing}.

(** For a recipient that counts as given, the constructor signs the message
    the validator rebuilds. *)
Lemma transfer_signs_canonical (k r : string) (a : Z) :
  r ≠ "" →
  signedMessage k (Some r) a = canonicalMessage (MineableTransaction k (Some r) a).
Proof.
  intros Hr. apply truthy_str_true in Hr.
  unfold signedMessage, canonicalMessage, MineableTransaction. cbn.
  rewrite Hr. reflexivity.
Qed.

(** C4, at a reward transaction. The constructor signs ["null"], ["null"]
    and the amount, because it prints its parameter [recipient]; the
    message made of the stored fields has the miner's public key in the
    middle. The two differ for every key whose public key is not the
    string ["null"]. *)
Theorem reward_signs_other_message (k : string) (a : Z) :
  getPublicKey k ≠ "null" →
  let t := MineableTransaction k None a in
  signature t = sign k ("nullnull" +:+ num_to_string a) ∧
  canonicalMessage t = "null" +:+ getPublicKey k +:+ num_to_string a ∧
  "nullnull" +:+ num_to_string a ≠ canonicalMessage t.
Proof.
  intros Hpk. cbn. split; [reflexivity|]. split; [reflexivity|].
  unfold canonicalMessage. cbn. intros Heq.
  change ("nullnull" +:+ num_to_string a)
    with ("null" +:+ ("null" +:+ num_to_string a)) in Heq.
  apply (inj (String.append "null")) in Heq.
  apply append_inj_r in Heq. congruence.
Qed.

(** C9, as the code has it. With a signing module whose signatures verify
    under the signer's public key, a transaction built with a non-empty
    recipient and a non-negative amount is a transfer from the signer to
    that recipient and passes [isValidTransaction]. *)
Theorem transfer_round_trip (k r : string) (a : Z) :
  (∀ k' m, verify (Some (getPublicKey k')) m (sign k' m) = true) →
  r ≠ "" →
  (0 ≤ a)%Z →
  let t := MineableTransaction k (Some r) a in
  source t = Some (getPublicKey k) ∧
  recipient t = r ∧
  isValidTransaction t = true.
Proof.
  intros Hverify Hr Ha t.
  pose proof (transfer_signs_canonical k r a Hr) as Hmsg.
  pose proof Hr as Ht. apply truthy_str_true in Ht.
  assert (source t = Some (getPublicKey k)) as Hsrc.
  { unfold t, MineableTransaction. cbn. rewrite Ht. reflexivity. }
  split; [exact Hsrc|]. split.
  { unfold t, MineableTransaction. cbn. rewrite Ht. reflexivity. }
  unfold isValidTransaction.
  destruct (Z.ltb_spec (amount t) 0) as [Hneg|_]; [cbn in Hneg; lia|].
  fold (canonicalMessage t). rewrite Hsrc.
  unfold t at 2. cbn [signature MineableTransaction]. fold t.
  unfold t at 1. rewrite <- Hmsg. apply Hverify.
Qed.

End Transactions.

(** ** The ledger replay *)

Lemma prop_insert_eq (state : gmap string cell) (k : string) (v : cell) :
  prop (<[k := v]> state) k = v.
Proof. unfold prop. rewrite lookup_insert_eq. reflexivity. Qed.

Lemma prop_insert_ne (state : gmap string cell) (k k' : string) (v : cell) :
  k ≠ k' → prop (<[k := v]> state) k' = prop state k'.
Proof. intros Hne. unfold prop. rewrite lookup_insert_ne by exact Hne. reflexivity. Qed.

Lemma replayStep_invalid (state : gmap string cell) (txn : Transaction) :
  truthy (prop state "isValid") = false → replayStep state txn = state.
Proof. intros Hv. unfold replayStep. rewrite Hv. reflexivity. Qed.

Lemma replay_invalid (state : gmap string cell) (txns : list Transaction) :
  truthy (prop state "isValid") = false → foldl replayStep state txns = state.
Proof.
  intros Hv. induction txns as [|txn txns IH]; [reflexivity|].
  cbn [foldl]. rewrite replayStep_invalid by exact Hv. exact IH.
Qed.

(** A reward, processed while the replay is valid, only credits. *)
Lemma replayStep_reward (state : gmap string cell) (txn : Transaction) :
  truthy (prop state "isValid") = true →
  source txn = None →
  replayStep state txn =
    <[recipient txn := cell_add (prop state (recipient txn)) (amount txn)]> state.
Proof.
  intros Hv Hsrc. unfold replayStep, debit, credit.
  rewrite Hv, Hsrc. cbn. rewrite Hv. reflexivity.
Qed.

(** A transaction processed while the replay is valid, and that leaves it
    valid, goes through the credit statement. *)
Lemma replayStep_credits (state : gmap string cell) (txn : Transaction) :
  truthy (prop state "isValid") = true →
  truthy (prop (debit state txn) "isValid") = true →
  replayStep state txn =
    <[recipient txn :=
        cell_add (prop (debit state txn) (recipient txn)) (amount txn)]>
      (debit state txn).
Proof.
  intros Hv Hd. unfold replayStep, credit. rewrite Hv, Hd. reflexivity.
Qed.

(** The credit adds to a balance that is already a number. *)
Lemma credit_adds_to_number (state : gmap string cell) (txn : Transaction) (n : Z) :
  truthy (prop state "isValid") = true →
  truthy (prop (debit state txn) "isValid") = true →
  prop (debit state txn) (recipient txn) = CNum n →
  prop (replayStep state txn) (recipient txn) = CNum (n + amount txn).
Proof.
  intros Hv Hd Hn. rewrite replayStep_credits by assumption.
  rewrite prop_insert_eq, Hn. reflexivity.
Qed.

(** C2, at a recipient without an entry. The credit is
    [state[txn.recipient] += txn.amount]; when the recipient has no entry
    after the debit, the left operand is [undefined] and the balance stored
    is [NaN], whatever the amount. *)
Theorem credit_of_new_recipient_is_NaN (state : gmap string cell) (txn : Transaction) :
  truthy (prop state "isValid") = true →
  truthy (prop (debit state txn) "isValid") = true →
  debit state txn !! recipient txn = None →
  prop (replayStep state txn) (recipient txn) = CNaN.
Proof.
  intros Hv Hd Hnone. rewrite replayStep_credits by assumption.
  rewrite prop_insert_eq. unfold prop. rewrite Hnone. reflexivity.
Qed.

(** A balance of [NaN] cannot be spent: a non-zero transfer from it marks
    the replay invalid. *)
Lemma replayStep_spend_NaN (state : gmap string cell) (txn : Transaction) (src : string) :
  truthy (prop state "isValid") = true →
  source txn = Some src → src ≠ "" →
  prop state src = CNaN →
  amount txn ≠ 0%Z →
  replayStep state txn = <["isValid" := CBool false]> state.
Proof.
  intros Hv Hsrc Hne Hnan Ha. unfold replayStep, debit, credit.
  rewrite Hv, Hsrc. cbn.
  apply truthy_str_true in Hne. rewrite Hne, Hnan. cbn.
  apply Z.eqb_neq in Ha. rewrite Ha. rewrite prop_insert_eq. reflexivity.
Qed.

(** Once the flag is falsy, the debit and credit statements leave it
    falsy: skipping the remaining transactions does not change the
    verdict. *)
Lemma debit_keeps_invalid (state : gmap string cell) (txn : Transaction) :
  truthy (prop state "isValid") = false →
  truthy (prop (debit state txn) "isValid") = false.
Proof.
  intros Hv. unfold debit. destruct (truthy_opt (source txn)); [|exact Hv].
  set (src := default "" (source txn)).
  destruct (decide (src = "isValid")) as [Heq|Hne].
  - rewrite Heq, Hv. cbn.
    destruct (Z.eqb_spec (amount txn) 0) as [->|_];
      rewrite prop_insert_eq; reflexivity.
  - destruct (_ && _); [rewrite prop_insert_ne by exact Hne; exact Hv|].
    destruct (amount txn =? 0)%Z;
      [rewrite prop_insert_ne by exact Hne; exact Hv|].
    rewrite prop_insert_eq. reflexivity.
Qed.

Lemma scanning_keeps_invalid (state : gmap string cell) (txns : list Transaction) :
  truthy (prop state "isValid") = false →
  truthy (prop (foldl replayStepScanning state txns) "isValid") = false.
Proof.
  revert state. induction txns as [|txn txns IH]; intros state Hv; [exact Hv|].
  cbn [foldl]. apply IH. unfold replayStepScanning, credit.
  pose proof (debit_keeps_invalid state txn Hv) as Hd. rewrite Hd. exact Hd.
Qed.

Lemma early_return_keeps_verdict (state : gmap string cell) (txns : list Transaction) :
  truthy (prop (foldl replayStep state txns) "isValid")
  = truthy (prop (foldl replayStepScanning state txns) "isValid").
Proof.
  revert state. induction txns as [|txn txns IH]; intros state; [reflexivity|].
  cbn [foldl]. destruct (truthy (prop state "isValid")) eqn:Hv.
  - unfold replayStep at 2. rewrite Hv. cbn [negb]. apply IH.
  - rewrite replayStep_invalid by exact Hv. rewrite replay_invalid by exact Hv.
    rewrite Hv. symmetry. apply scanning_keeps_invalid.
    unfold replayStepScanning, credit.
    pose proof (debit_keeps_invalid state txn Hv) as Hd. rewrite Hd. exact Hd.
Qed.

Section Ledger.
Context `{Signing} `{Hashing}.

Lemma accepted_leadingZeros (b : Block) (d : Z) :
  accepted b d = Ok true → leadingZeros (hash b) d = Ok true.
Proof.
  unfold accepted. destruct (truthy_hash (hash b)); [auto|discriminate].
Qed.

Lemma validHashes_two (c : Chain) (g b1 b2 : Block) :
  blocks c = [g; b1; b2] →
  accepted b1 (difficulty c) = Ok true →
  accepted b2 (difficulty c) = Ok true →
  validHashes c = Ok true.
Proof.
  intros Hc H1 H2. unfold validHashes. rewrite Hc. cbn [drop map_result].
  rewrite (accepted_leadingZeros _ _ H1), (accepted_leadingZeros _ _ H2).
  reflexivity.
Qed.

(** C1, end to end. Miner A mines on a new chain, A's transfer of 3 to B
    is queued, miner B mines. On the resulting chain the replay credits
    A's reward as [NaN], A's transfer then marks the replay invalid, and
    [isValidMineableChain] answers [false]. *)
Theorem scenario_is_rejected (fuel1 fuel2 : nat) (kA kB B : string) (c1 c2 : Chain) :
  getPublicKey kA ≠ "" →
  getPublicKey kA ≠ "isValid" →
  B ≠ "" →
  mine fuel1 kA newMineableChain = Some (Ok c1) →
  mine fuel2 kB (addTransaction c1 (MineableTransaction kA (Some B) 3)) = Some (Ok c2) →
  isValidMineableChain c2 = Ok (CBool false) ∧
  prop (enoughFunds c2) (getPublicKey kA) = CNaN.
Proof.
  intros HA HAv HB Hm1 Hm2.
  apply mine_inv in Hm1 as (head1 & n1 & Hhead1 & _ & -> & Hacc1 & _).
  apply mine_inv in Hm2 as (head2 & n2 & Hhead2 & _ & -> & Hacc2 & _).
  cbn in Hacc1, Hacc2. cbn [blocks pendingTransactions addTransaction reward] in *.
  set (rewardA := MineableTransaction kA None 5) in *.
  set (transfer := MineableTransaction kA (Some B) 3) in *.
  set (rewardB := MineableTransaction kB None 5) in *.
  set (b1 := calculateHash (MineableBlock ([] ++ [rewardA]) (hash head1)) n1) in *.
  set (b2 := calculateHash (MineableBlock (([] ++ [transfer]) ++ [rewardB]) (hash head2)) n2) in *.
  assert (source transfer = Some (getPublicKey kA)) as Hsrc.
  { unfold transfer, MineableTransaction. cbn.
    apply truthy_str_true in HB. rewrite HB. reflexivity. }
  set (s1 := <[getPublicKey kA := CNaN]> initialState).
  set (s2 := <["isValid" := CBool false]> s1).
  assert (∀ c, blocks c = [genesisBlock; b1; b2] → enoughFunds c = s2) as Hfunds.
  { intros c Hc. unfold enoughFunds, allTransactions. rewrite Hc. cbn [blocks newMineableChain app map foldl
      transactions genesisBlock newBlock calculateHash b1 b2 MineableBlock].
    cbn [foldl].
    rewrite (replayStep_reward initialState rewardA) by reflexivity.
    assert (prop initialState (recipient rewardA) = CUndefined) as ->.
    { unfold prop, initialState. rewrite lookup_singleton_ne; [reflexivity|].
      cbn. congruence. }
    change (recipient rewardA) with (getPublicKey kA).
    change (cell_add CUndefined (amount rewardA)) with CNaN. fold s1.
    assert (truthy (prop s1 "isValid") = true) as Hv1.
    { unfold s1. rewrite prop_insert_ne by exact HAv. reflexivity. }
    rewrite (replayStep_spend_NaN s1 transfer (getPublicKey kA)); try assumption.
    - fold s2. apply replayStep_invalid. unfold s2. rewrite prop_insert_eq. reflexivity.
    - unfold s1. apply prop_insert_eq.
    - discriminate. }
  split.
  - unfold isValidMineableChain. erewrite Hfunds by reflexivity.
    erewrite validHashes_two; [|reflexivity|exact Hacc1|exact Hacc2].
    cbn [mbind result_bind]. unfold s2. rewrite prop_insert_eq.
    destruct (_ && _); reflexivity.
  - erewrite Hfunds by reflexivity. unfold s2, s1.
    rewrite prop_insert_ne by congruence. apply prop_insert_eq.
Qed.

(** C5, at a chain holding a block without a hash. A [MineableBlock]
    that was pushed on a new chain without being mined has no [hash]
    property; [leadingZeros] calls [slice] on that [undefined] and
    [isValidMineableChain] throws. The same happens for a [null] hash. *)
Theorem hashless_block_makes_validator_throw
    (txs : list Transaction) (prev : hashval) (n : option Z) :
  isValidMineableChain (mine_end newMineableChain (MineableBlock txs prev))
    = Throw TypeError ∧
  isValidMineableChain (mine_end newMineableChain (mkBlock txs prev n HNull))
    = Throw TypeError.
Proof. split; reflexivity. Qed.

(** [isValidChain] reads [previousHash] of a genesis block that is not
    there. *)
Lemma isValidChain_empty (d r : Z) (q : list Transaction) :
  isValidChain (mkChain [] d r q) = Throw TypeError.
Proof. reflexivity. Qed.

(** The accumulator keeps the flag and the balances in one object: a
    reward paid to the key ["isValid"] is added to the flag, and the
    validator hands back that number. *)
Lemma verdict_can_be_a_number :
  isValidMineableChain
    (mkChain [mkBlock [] HNull (Some 0%Z) (HStr "c0");
              mkBlock [mkTransaction None "isValid" 5 ""] (HStr "c0") (Some 0%Z) (HStr "00")]
             2 5 [])
  = Ok (CNum 6).
Proof. vm_compute. reflexivity. Qed.

End Ledger.

(** ** The engine on the concrete provider *)

Lemma demo_signatures_verify (k m : string) :
  @verify demoSigning (Some (@getPublicKey demoSigning k)) m (@sign demoSigning k m) = true.
Proof. cbn. apply String.eqb_refl. Qed.

(** C8, at the end-to-end chain. The replay of the code and the replay
    the specification describes give different verdicts on the chain of the
    end-to-end scenario: the code marks it invalid, the reference accepts
    it with balances 2, 3 and 5. *)
Theorem replay_disagrees_with_reference :
  ∃ c, demoScenario = Some (Ok c) ∧
       prop (enoughFunds c) "isValid" = CBool false ∧
       isValidMineableChain c = Ok (CBool false) ∧
       referenceReplay c
         = (true, {[ "02ka" := 2%Z; "02kc" := 3%Z; "02kb" := 5%Z ]}).
Proof.
  eexists. split; [vm_compute; reflexivity|].
  repeat split; vm_compute; reflexivity.
Qed.

(** C9 as worded fails for the empty string: it is not [null], yet the
    constructor treats it as an omitted recipient and builds a reward
    for the signer. *)
Lemma empty_recipient_is_not_a_transfer :
  (∀ k m, @verify demoSigning (Some (@getPublicKey demoSigning k)) m
            (@sign demoSigning k m) = true) ∧
  (0 ≤ 3)%Z ∧
  let t := @MineableTransaction demoSigning "ka" (Some "") 3 in
  source t = None ∧ recipient t = "02ka" ∧
  ¬ (source t = Some (@getPublicKey demoSigning "ka") ∧
     recipient t = "" ∧
     @isValidTransaction demoSigning t = true).
Proof.
  split; [exact demo_signatures_verify|]. split; [lia|].
  cbn. split; [reflexivity|]. split; [reflexivity|].
  intros (Hsrc & _). discriminate.
Qed.

(** ** Instances of the statements on the concrete provider *)

Lemma scenario_is_rejected_witness :
  (@getPublicKey demoSigning "ka" ≠ "" ∧
   @getPublicKey demoSigning "ka" ≠ "isValid" ∧
   "02kc" ≠ "" ∧
   @mine demoSigning demoHashing 10 "ka" (@newMineableChain demoHashing)
     = Some (Ok (chain_of demoFirstMine)) ∧
   @mine demoSigning demoHashing 10 "kb"
       (addTransaction (chain_of demoFirstMine)
          (@MineableTransaction demoSigning "ka" (Some "02kc") 3))
     = Some (Ok (chain_of demoScenario))) ∧
  (isValidMineableChain (chain_of demoScenario) = Ok (CBool false) ∧
   prop (enoughFunds (chain_of demoScenario)) (@getPublicKey demoSigning "ka") = CNaN).
Proof.
  assert (@getPublicKey demoSigning "ka" ≠ "") as H1 by (vm_compute; discriminate).
  assert (@getPublicKey demoSigning "ka" ≠ "isValid") as H2 by (vm_compute; discriminate).
  assert ("02kc" ≠ "") as H3 by discriminate.
  assert (@mine demoSigning demoHashing 10 "ka" (@newMineableChain demoHashing)
          = Some (Ok (chain_of demoFirstMine))) as H4 by (vm_compute; reflexivity).
  assert (@mine demoSigning demoHashing 10 "kb"
            (addTransaction (chain_of demoFirstMine)
               (@MineableTransaction demoSigning "ka" (Some "02kc") 3))
          = Some (Ok (chain_of demoScenario))) as H5 by (vm_compute; reflexivity).
  split; [auto|].
  exact (@scenario_is_rejected demoSigning demoHashing 10 10 "ka" "kb" "02kc"
           (chain_of demoFirstMine) (chain_of demoScenario) H1 H2 H3 H4 H5).
Defined.

Lemma credit_of_new_recipient_is_NaN_witness :
  let txn := mkTransaction None "02ka" 5 "ka/nullnull5" in
  (truthy (prop initialState "isValid") = true ∧
   truthy (prop (debit initialState txn) "isValid") = true ∧
   debit initialState txn !! recipient txn = None) ∧
  prop (replayStep initialState txn) (recipient txn) = CNaN.
Proof.
  intros txn.
  assert (truthy (prop initialState "isValid") = true) as H1 by reflexivity.
  assert (truthy (prop (debit initialState txn) "isValid") = true) as H2 by reflexivity.
  assert (debit initialState txn !! recipient txn = None) as H3
    by (vm_compute; reflexivity).
  split; [auto|].
  exact (credit_of_new_recipient_is_NaN initialState txn H1 H2 H3).
Defined.

Lemma mine_meets_difficulty_witness :
  @mine demoSigning demoHashing 10 "ka" (@newMineableChain demoHashing)
    = Some (Ok (chain_of demoFirstMine)) ∧
  ∃ b s n,
    blocks (chain_of demoFirstMine) = blocks (@newMineableChain demoHashing) ++ [b] ∧
    hash b = HStr s ∧
    (0 ≤ difficulty (@newMineableChain demoHashing))%Z ∧
    meetsDifficulty (difficulty (@newMineableChain demoHashing)) s ∧
    nonce b = Some n ∧ (0 ≤ n)%Z ∧
    s = @digest demoHashing (transactions b) (previousHash b) (Some n) ∧
    ∀ m, (0 ≤ m < n)%Z →
      ¬ acceptable (difficulty (@newMineableChain demoHashing))
          (@digest demoHashing (transactions b) (previousHash b) (Some m)).
Proof.
  assert (@mine demoSigning demoHashing 10 "ka" (@newMineableChain demoHashing)
          = Some (Ok (chain_of demoFirstMine))) as Hm by (vm_compute; reflexivity).
  split; [exact Hm|].
  exact (@mine_meets_difficulty demoSigning demoHashing 10 "ka"
           (@newMineableChain demoHashing) (chain_of demoFirstMine) Hm).
Defined.

Lemma reward_signs_other_message_witness :
  @getPublicKey demoSigning "ka" ≠ "null" ∧
  let t := @MineableTransaction demoSigning "ka" None 5 in
  signature t = @sign demoSigning "ka" ("nullnull" +:+ num_to_string 5) ∧
  canonicalMessage t = "null" +:+ @getPublicKey demoSigning "ka" +:+ num_to_string 5 ∧
  "nullnull" +:+ num_to_string 5 ≠ canonicalMessage t.
Proof.
  assert (@getPublicKey demoSigning "ka" ≠ "null") as Hk by (vm_compute; discriminate).
  split; [exact Hk|].
  exact (@reward_signs_other_message demoSigning "ka" 5 Hk).
Defined.

Lemma isValidChain_false_iff_witness :
  blocks (chain_of demoScenario)
    = @genesisBlock demoHashing :: drop 1 (blocks (chain_of demoScenario)) ∧
  (@isValidChain demoSigning demoHashing (chain_of demoScenario) = Ok false ↔
     @chainFault demoSigning demoHashing (chain_of demoScenario)
       (@genesisBlock demoHashing)) ∧
  (¬ @chainFault demoSigning demoHashing (chain_of demoScenario)
       (@genesisBlock demoHashing) →
   @isValidChain demoSigning demoHashing (chain_of demoScenario) = Ok true) ∧
  (hash (@genesisBlock demoHashing) = HNull →
   @isValidChain demoSigning demoHashing (chain_of demoScenario) = Ok false).
Proof.
  assert (blocks (chain_of demoScenario)
          = @genesisBlock demoHashing :: drop 1 (blocks (chain_of demoScenario)))
    as Hblocks by (vm_compute; reflexivity).
  split; [exact Hblocks|].
  exact (@isValidChain_false_iff demoSigning demoHashing (chain_of demoScenario)
           (@genesisBlock demoHashing) (drop 1 (blocks (chain_of demoScenario)))
           Hblocks).
Defined.

(** C6 as worded fails at a genesis block whose previous hash is missing:
    the block has no transaction and its hash is its digest, so no fault of
    the worded list is present, yet [undefined !== null] holds and
    [isValidChain] answers [false]. *)
Lemma missing_previousHash_is_rejected :
  blocks demoMissingPreviousHash = [demoMissingGenesis] ∧
  absent (previousHash demoMissingGenesis) ∧
  @isValidBlock demoSigning demoHashing demoMissingGenesis = true ∧
  ¬ @statedDefect demoSigning demoHashing demoMissingPreviousHash demoMissingGenesis ∧
  @isValidChain demoSigning demoHashing demoMissingPreviousHash = Ok false.
Proof.
  split; [reflexivity|]. split; [right; reflexivity|].
  assert (@isValidBlock demoSigning demoHashing demoMissingGenesis = true) as Hvalid
    by (vm_compute; reflexivity).
  split; [exact Hvalid|]. split; [|vm_compute; reflexivity].
  intros [[Hp|Ht]|[(b & Hb & _)|[(i & b & b' & _ & H2 & _)|(b & Hb & Hbad)]]].
  - apply Hp. right. reflexivity.
  - apply Ht. reflexivity.
  - cbn in Hb. inversion Hb.
  - cbn in H2. discriminate.
  - cbn in Hb. apply list_elem_of_singleton in Hb. subst b. congruence.
Qed.

Lemma mine_frame_witness :
  @mine demoSigning demoHashing 10 "kb"
      (addTransaction (chain_of demoFirstMine) demoTransfer)
    = Some (Ok (chain_of demoScenario)) ∧
  pendingTransactions (chain_of demoScenario) = [] ∧
  length (blocks (chain_of demoScenario)) = S (length (blocks (chain_of demoFirstMine))).
Proof.
  assert (@mine demoSigning demoHashing 10 "kb"
            (addTransaction (chain_of demoFirstMine) demoTransfer)
          = Some (Ok (chain_of demoScenario))) as Hm by (vm_compute; reflexivity).
  split; [exact Hm|].
  destruct (@mine_frame demoSigning demoHashing 10 "kb"
              (addTransaction (chain_of demoFirstMine) demoTransfer)
              (chain_of demoScenario) Hm)
    as (head & c1 & b0 & b & _ & _ & _ & _ & _ & _ & _ & _ & _ & _ & _ & Hq & Hb & _).
  split; [exact Hq|]. rewrite Hb, length_app. cbn. lia.
Defined.

Lemma transfer_round_trip_witness :
  ((∀ k m, @verify demoSigning (Some (@getPublicKey demoSigning k)) m
             (@sign demoSigning k m) = true) ∧
   "02kc" ≠ "" ∧ (0 ≤ 3)%Z) ∧
  let t := @MineableTransaction demoSigning "ka" (Some "02kc") 3 in
  source t = Some (@getPublicKey demoSigning "ka") ∧
  recipient t = "02kc" ∧
  @isValidTransaction demoSigning t = true.
Proof.
  assert ("02kc" ≠ "") as Hr by discriminate.
  assert (0 ≤ 3)%Z as Ha by lia.
  split; [auto using demo_signatures_verify|].
  exact (@transfer_round_trip demoSigning "ka" "02kc" 3 demo_signatures_verify Hr Ha).
Defined.

Lemma policy_is_fixed_witness :
  @mine demoSigning demoHashing 10 "ka" (@newMineableChain demoHashing)
    = Some (Ok (chain_of demoFirstMine)) ∧
  difficulty (chain_of demoFirstMine) = difficulty (@newMineableChain demoHashing) ∧
  reward (chain_of demoFirstMine) = reward (@newMineableChain demoHashing).
Proof.
  assert (@mine demoSigning demoHashing 10 "ka" (@newMineableChain demoHashing)
          = Some (Ok (chain_of demoFirstMine))) as Hm by (vm_compute; reflexivity).
  split; [exact Hm|].
  destruct (@policy_is_fixed demoSigning demoHashing) as (_ & _ & _ & Hmine).
  exact (Hmine 10 "ka" (@newMineableChain demoHashing) (chain_of demoFirstMine) Hm).
Defined.

(** * Further properties of the engine *)

(** ** [leadingZeros] *)

Lemma zeros_add (a b : nat) : zeros (a + b) = zeros a +:+ zeros b.
Proof.
  induction a as [|a IH]; [reflexivity|].
  cbn [Nat.add zeros]. rewrite append_cons. f_equal. exact IH.
Qed.

Lemma append_assoc (s t u : string) : (s +:+ t) +:+ u = s +:+ (t +:+ u).
Proof.
  induction s as [|a s IH]; [reflexivity|].
  rewrite !append_cons. f_equal. exact IH.
Qed.

Lemma meetsDifficulty_weaken (d d' : Z) (s : string) :
  (0 ≤ d' ≤ d)%Z → meetsDifficulty d s → meetsDifficulty d' s.
Proof.
  intros Hd [rest ->]. unfold meetsDifficulty.
  replace (Z.to_nat d) with (Z.to_nat d' + Z.to_nat (d - d'))%nat by lia.
  rewrite zeros_add, append_assoc. eauto.
Qed.

Lemma meetsDifficulty_length (d : Z) (s : string) :
  meetsDifficulty d s → (Z.to_nat d ≤ String.length s)%nat.
Proof.
  intros [rest ->]. rewrite append_length, zeros_length. lia.
Qed.

Section LeadingZeros.

(** A hash that passes at one difficulty passes at every lower one. *)
Theorem leadingZeros_weaken (h : hashval) (d d' : Z) :
  (0 ≤ d' ≤ d)%Z →
  leadingZeros h d = Ok true →
  leadingZeros h d' = Ok true.
Proof.
  intros Hd Hok. apply leadingZeros_true in Hok as (_ & s & -> & Hm).
  apply leadingZeros_true. split; [lia|]. exists s. split; [reflexivity|].
  exact (meetsDifficulty_weaken d d' s Hd Hm).
Qed.

(** A string shorter than the difficulty never passes, and the test does
    not throw on it. *)
Theorem leadingZeros_short (s : string) (d : Z) :
  (0 ≤ d)%Z →
  (String.length s < Z.to_nat d)%nat →
  leadingZeros (HStr s) d = Ok false.
Proof.
  intros Hd Hlen. destruct (leadingZeros (HStr s) d) as [[|]|e] eqn:Hl.
  - apply leadingZeros_true in Hl as (_ & s' & Hs & Hm). injection Hs as <-.
    apply meetsDifficulty_length in Hm. lia.
  - reflexivity.
  - unfold leadingZeros in Hl. destruct (Z.ltb_spec d 0); [lia|discriminate].
Qed.

End LeadingZeros.

(** ** When [isValidMineableChain] answers *)

Lemma map_result_Ok {A B : Type} (f : A → result B) (l : list A) :
  (∃ ys, map_result f l = Ok ys) ↔ ∀ x, x ∈ l → ∃ y, f x = Ok y.
Proof.
  induction l as [|x l IH]; cbn [map_result].
  - split; [|eauto]. intros _ x Hx. inversion Hx.
  - split.
    + intros [ys Hys] x' Hx'.
      destruct (f x) as [y|e] eqn:Hfx; [|discriminate].
      destruct (map_result f l) as [ys'|e] eqn:Hl; [|discriminate].
      apply elem_of_cons in Hx' as [->|Hx']; [eauto|].
      apply IH; eauto.
    + intros Hall. destruct (Hall x) as [y Hy]; [left|].
      destruct (proj2 IH) as [ys Hys].
      { intros x' Hx'. apply Hall. right. exact Hx'. }
      rewrite Hy, Hys. cbn. eauto.
Qed.

Lemma map_result_app {A B : Type} (f : A → result B) (l1 l2 : list A) (ys1 ys2 : list B) :
  map_result f l1 = Ok ys1 → map_result f l2 = Ok ys2 →
  map_result f (l1 ++ l2) = Ok (ys1 ++ ys2).
Proof.
  revert ys1. induction l1 as [|x l1 IH]; intros ys1 H1 H2; cbn in *.
  - injection H1 as <-. exact H2.
  - destruct (f x) as [y|e]; [|discriminate]. cbn in *.
    destruct (map_result f l1) as [ys|e]; [|discriminate]. cbn in *.
    injection H1 as <-. rewrite (IH ys eq_refl H2). reflexivity.
Qed.

Lemma leadingZeros_Ok (h : hashval) (d : Z) :
  (∃ b, leadingZeros h d = Ok b) ↔ (0 ≤ d)%Z ∧ ∃ s, h = HStr s.
Proof.
  unfold leadingZeros. destruct (Z.ltb_spec d 0) as [Hneg|Hpos].
  - split; [intros [b Hb]; discriminate|]. intros [Hd _]. lia.
  - destruct h as [| |s].
    + split; [intros [b Hb]; discriminate|]. intros (_ & s & Hs). discriminate.
    + split; [intros [b Hb]; discriminate|]. intros (_ & s & Hs). discriminate.
    + split; eauto.
Qed.

Lemma includes_app (x : bool) (l1 l2 : list bool) :
  includes x (l1 ++ l2) = includes x l1 || includes x l2.
Proof. unfold includes. apply existsb_app. Qed.

Section Verdicts.

(** [isValidMineableChain] returns a value, instead of throwing, exactly
    when the chain has no block after the genesis block, or its difficulty
    is not negative and every block after the genesis block has a string
    for a hash. *)
Theorem isValidMineableChain_answers (c : Chain) :
  (∃ v, isValidMineableChain c = Ok v) ↔
  drop 1 (blocks c) = [] ∨
  ((0 ≤ difficulty c)%Z ∧ ∀ b, b ∈ drop 1 (blocks c) → ∃ s, hash b = HStr s).
Proof.
  unfold isValidMineableChain, validHashes.
  pose proof (map_result_Ok (λ block, leadingZeros (hash block) (difficulty c))
                (drop 1 (blocks c))) as Hmap.
  destruct (map_result _ (drop 1 (blocks c))) as [checks|e] eqn:Hchecks.
  - split; [intros _|cbn; eauto].
    destruct (drop 1 (blocks c)) as [|b0 tl] eqn:Htl; [left; reflexivity|right].
    assert (∀ x, x ∈ b0 :: tl → ∃ y, leadingZeros (hash x) (difficulty c) = Ok y)
      as Hall by (apply Hmap; eauto).
    split.
    + destruct (Hall b0) as [y Hy]; [left|].
      apply (proj1 (leadingZeros_Ok (hash b0) (difficulty c))). eauto.
    + intros b Hb. destruct (Hall b Hb) as [y Hy].
      apply (proj1 (leadingZeros_Ok (hash b) (difficulty c))). eauto.
  - split; [intros [v Hv]; discriminate|]. intros Hcases. exfalso.
    assert (∃ ys, @Throw (list bool) e = Ok ys) as [ys Hys]; [|discriminate].
    apply Hmap. destruct Hcases as [Hnil|[Hd Hstr]].
    + rewrite Hnil. intros x Hx. inversion Hx.
    + intros x Hx. apply leadingZeros_Ok. split; [exact Hd|]. apply Hstr. exact Hx.
Qed.

(** The value is [false] or the flag the replay ends with. *)
Lemma isValidMineableChain_value (c : Chain) (v : cell) :
  isValidMineableChain c = Ok v →
  v = CBool false ∨
  (validHashes c = Ok true ∧ oneRewardPerBlock c = true ∧
   notTamperedReward c = true ∧ v = prop (enoughFunds c) "isValid").
Proof.
  unfold isValidMineableChain. destruct (validHashes c) as [vh|e]; [|discriminate].
  cbn. intros Hv. injection Hv as <-.
  destruct vh, (oneRewardPerBlock c), (notTamperedReward c); cbn; auto.
Qed.

End Verdicts.

(** ** The reward checks *)

Lemma includes_true_map {A : Type} (f : A → bool) (l : list A) :
  includes true (map f l) = true ↔ ∃ x, x ∈ l ∧ f x = true.
Proof.
  unfold includes. rewrite existsb_exists. split.
  - intros (y & Hin & Hy). destruct y; [|discriminate].
    apply in_map_iff in Hin as (x & Hx & Hin). exists x.
    split; [apply list_elem_of_In; exact Hin|exact Hx].
  - intros (x & Hin & Hx). exists true. split; [|reflexivity].
    apply in_map_iff. exists x. split; [exact Hx|apply list_elem_of_In; exact Hin].
Qed.

Lemma filter_nil_iff {A : Type} (f : A → bool) (l : list A) :
  List.filter f l = [] ↔ ∀ x, x ∈ l → f x = false.
Proof.
  induction l as [|a l IH]; cbn.
  - split; [|reflexivity]. intros _ x Hx. inversion Hx.
  - destruct (f a) eqn:Hfa.
    + split; [discriminate|]. intros Hall.
      rewrite Hall in Hfa by left. discriminate.
    + rewrite IH. split.
      * intros Hall x Hx. apply elem_of_cons in Hx as [->|Hx]; auto.
      * intros Hall x Hx. apply Hall. right. exact Hx.
Qed.

Lemma length_zero_nil {A : Type} (l : list A) : (length l =? 0)%nat = true ↔ l = [].
Proof. destruct l; cbn; split; congruence. Qed.

Lemma isReward_true (t : Transaction) : isReward t = true ↔ source t = None.
Proof. unfold isReward. apply bool_decide_eq_true. Qed.

Lemma oneRewardPerBlock_true (c : Chain) :
  oneRewardPerBlock c = true ↔
  ∀ b, b ∈ blocks c → (length (List.filter isReward (transactions b)) ≤ 1)%nat.
Proof.
  unfold oneRewardPerBlock. rewrite negb_true_iff. split.
  - intros Hno b Hb.
    destruct (Nat.ltb_spec 1 (length (List.filter isReward (transactions b))))
      as [Hlt|Hle]; [|exact Hle].
    assert (includes true
              (map (λ block, (1 <? length (List.filter isReward (transactions block)))%nat)
                 (blocks c)) = true) as Hyes.
    { apply includes_true_map. exists b. split; [exact Hb|].
      apply Nat.ltb_lt. exact Hlt. }
    congruence.
  - intros Hall. apply not_true_is_false. intros Hyes.
    apply includes_true_map in Hyes as (b & Hb & Hlt).
    apply Nat.ltb_lt in Hlt. specialize (Hall b Hb). lia.
Qed.

Lemma notTamperedReward_true (c : Chain) :
  notTamperedReward c = true ↔
  ∀ b t, b ∈ blocks c → t ∈ transactions b → source t = None → amount t = reward c.
Proof.
  unfold notTamperedReward. rewrite length_zero_nil, filter_nil_iff. split.
  - intros Hall b t Hb Ht Hsrc.
    assert (List.filter (λ txn, isReward txn && negb (amount txn =? reward c)%Z)
              (transactions b) = []) as Hnil.
    { apply length_zero_nil, negb_false_iff. apply Hall.
      apply list_elem_of_In, in_map_iff. exists b.
      split; [reflexivity|apply list_elem_of_In; exact Hb]. }
    pose proof (proj1 (filter_nil_iff _ _) Hnil t Ht) as Hf.
    apply andb_false_iff in Hf as [Hf|Hf].
    + apply isReward_true in Hsrc. congruence.
    + apply negb_false_iff, Z.eqb_eq in Hf. exact Hf.
  - intros Hall res Hres.
    apply list_elem_of_In, in_map_iff in Hres as (b & <- & Hb).
    apply list_elem_of_In in Hb.
    apply negb_false_iff, length_zero_nil, filter_nil_iff. intros t Ht.
    destruct (isReward t) eqn:Hr; [|reflexivity]. cbn.
    apply negb_false_iff, Z.eqb_eq. apply (Hall b t Hb Ht).
    apply isReward_true. exact Hr.
Qed.

Section RewardChecks.

(** A chain with a block that holds more than one transaction without a
    source is rejected: the validator answers [false], unless it throws. *)
Theorem two_rewards_are_rejected (c : Chain) (b : Block) :
  b ∈ blocks c →
  (1 < length (List.filter isReward (transactions b)))%nat →
  isValidMineableChain c = Ok (CBool false) ∨ ∃ e, isValidMineableChain c = Throw e.
Proof.
  intros Hb Hlen. destruct (isValidMineableChain c) as [v|e] eqn:Hv; [left|eauto].
  apply isValidMineableChain_value in Hv as [->|(_ & Hone & _)]; [reflexivity|].
  pose proof (proj1 (oneRewardPerBlock_true c) Hone b Hb). lia.
Qed.

(** A chain with a transaction without a source whose amount is not the
    chain's reward is rejected: the validator answers [false], unless it
    throws. *)
Theorem tampered_reward_is_rejected (c : Chain) (b : Block) (t : Transaction) :
  b ∈ blocks c →
  t ∈ transactions b →
  source t = None →
  amount t ≠ reward c →
  isValidMineableChain c = Ok (CBool false) ∨ ∃ e, isValidMineableChain c = Throw e.
Proof.
  intros Hb Ht Hsrc Hamt.
  destruct (isValidMineableChain c) as [v|e] eqn:Hv; [left|eauto].
  apply isValidMineableChain_value in Hv as [->|(_ & _ & Hnt & _)]; [reflexivity|].
  pose proof (proj1 (notTamperedReward_true c) Hnt b t Hb Ht Hsrc). contradiction.
Qed.

End RewardChecks.

(** ** What [mine] keeps *)

Lemma drop1_snoc {A : Type} (l : list A) (x : A) :
  l ≠ [] → drop 1 (l ++ [x]) = drop 1 l ++ [x].
Proof. destruct l; [congruence|reflexivity]. Qed.

Lemma last_Some_nonempty {A : Type} (l : list A) (x : A) : last l = Some x → l ≠ [].
Proof. destruct l; [discriminate|congruence]. Qed.

Lemma filter_length_app {A : Type} (f : A → bool) (l1 l2 : list A) :
  length (List.filter f (l1 ++ l2))
  = (length (List.filter f l1) + length (List.filter f l2))%nat.
Proof. rewrite List.filter_app, length_app. reflexivity. Qed.

Lemma filter_length_pos {A : Type} (f : A → bool) (l : list A) (x : A) :
  x ∈ l → f x = true → (0 < length (List.filter f l))%nat.
Proof.
  intros Hin Hfx. induction l as [|a l IH]; [inversion Hin|].
  cbn. apply elem_of_cons in Hin as [<-|Hin].
  - rewrite Hfx. cbn. lia.
  - destruct (f a); cbn; [lia|]. apply IH. exact Hin.
Qed.

Section MineKeeps.
Context `{Signing} `{Hashing}.

(** The chain a returning [mine] hands back, in terms of the block it
    added. *)
Lemma mine_block (fuel : nat) (k : string) (c c' : Chain) :
  mine fuel k c = Some (Ok c') →
  ∃ head b,
    getHeadBlock c = Some head ∧
    blocks c' = blocks c ++ [b] ∧
    transactions b = pendingTransactions c ++ [MineableTransaction k None (reward c)] ∧
    previousHash b = hash head ∧
    accepted b (difficulty c) = Ok true ∧
    difficulty c' = difficulty c ∧ reward c' = reward c ∧
    pendingTransactions c' = [].
Proof.
  intros Hm. apply mine_inv in Hm as (head & n & Hhead & _ & -> & Hacc & _).
  eexists head, _. repeat split; try reflexivity; assumption.
Qed.

Lemma mine_validHashes (fuel : nat) (k : string) (c c' : Chain) :
  validHashes c = Ok true →
  mine fuel k c = Some (Ok c') →
  validHashes c' = Ok true.
Proof.
  intros Hvh Hm.
  apply mine_block in Hm as (head & b & Hhead & Hb & _ & _ & Hacc & Hd & _).
  unfold validHashes in *. rewrite Hb, Hd.
  rewrite drop1_snoc by (apply (last_Some_nonempty _ head); exact Hhead).
  destruct (map_result _ (drop 1 (blocks c))) as [checks|e] eqn:Hchecks;
    [|discriminate].
  cbn in Hvh. injection Hvh as Hvh.
  erewrite map_result_app; [|exact Hchecks|].
  2:{ cbn [map_result]. rewrite (accepted_leadingZeros _ _ Hacc). reflexivity. }
  cbn. rewrite includes_app. apply negb_true_iff in Hvh. rewrite Hvh. reflexivity.
Qed.

(** [mine] keeps the proof-of-work check: if every block after the
    genesis block passed [leadingZeros] before, every one does after. *)
Theorem mine_keeps_validHashes (fuel : nat) (k : string) (c c' : Chain) :
  validHashes c = Ok true →
  mine fuel k c = Some (Ok c') →
  validHashes c' = Ok true.
Proof. apply mine_validHashes. Qed.

(** [mine] keeps the chain linked: if every block's hash was its
    successor's previous hash before, it is so after. *)
Theorem mine_keeps_links (fuel : nat) (k : string) (c c' : Chain) :
  ¬ brokenLink c →
  mine fuel k c = Some (Ok c') →
  ¬ brokenLink c'.
Proof.
  intros Hlinked Hm (i & b1 & b2 & H1 & H2 & Hne).
  apply mine_block in Hm as (head & b & Hhead & Hb & _ & Hprev & _).
  rewrite Hb in H1, H2.
  unfold getHeadBlock in Hhead. rewrite last_lookup in Hhead.
  assert (blocks c ≠ []) as Hnonempty.
  { intros Hnil. rewrite Hnil in Hhead. discriminate. }
  assert (0 < length (blocks c))%nat as Hpos.
  { destruct (blocks c); [congruence|cbn; lia]. }
  destruct (decide (S i < length (blocks c))%nat) as [Hlt|Hge].
  - rewrite lookup_app_l in H1 by lia. rewrite lookup_app_l in H2 by lia.
    apply Hlinked. exists i, b1, b2. auto.
  - assert (S i = length (blocks c)) as Hi.
    { apply lookup_lt_Some in H2. rewrite length_app in H2. cbn in H2. lia. }
    rewrite lookup_app_l in H1 by lia.
    rewrite lookup_app_r in H2 by lia.
    replace (S i - length (blocks c))%nat with 0%nat in H2 by lia.
    cbn in H2. injection H2 as <-.
    replace (pred (length (blocks c))) with i in Hhead by lia.
    rewrite Hhead in H1. injection H1 as <-. congruence.
Qed.

Lemma mine_reward_checks (fuel : nat) (k : string) (c c' : Chain) :
  oneRewardPerBlock c = true →
  notTamperedReward c = true →
  (∀ t, t ∈ pendingTransactions c → source t ≠ None) →
  mine fuel k c = Some (Ok c') →
  oneRewardPerBlock c' = true ∧ notTamperedReward c' = true.
Proof.
  intros Hone Hnt Hqueue Hm.
  apply mine_block in Hm as (head & b & _ & Hb & Htxs & _ & _ & _ & Hr & _).
  assert (List.filter isReward (pendingTransactions c) = []) as Hnone.
  { apply filter_nil_iff. intros t Ht. apply not_true_is_false.
    intros Hrw. apply isReward_true in Hrw. exact (Hqueue t Ht Hrw). }
  split.
  - apply oneRewardPerBlock_true. intros b' Hb'. rewrite Hb in Hb'.
    apply elem_of_app in Hb' as [Hb'|Hb'].
    + apply (proj1 (oneRewardPerBlock_true c) Hone). exact Hb'.
    + apply list_elem_of_singleton in Hb'. subst b'.
      rewrite Htxs, filter_length_app, Hnone. cbn. lia.
  - apply notTamperedReward_true. intros b' t Hb' Ht Hsrc. rewrite Hr.
    rewrite Hb in Hb'. apply elem_of_app in Hb' as [Hb'|Hb'].
    + apply (proj1 (notTamperedReward_true c) Hnt b' t Hb' Ht Hsrc).
    + apply list_elem_of_singleton in Hb'. subst b'. rewrite Htxs in Ht.
      apply elem_of_app in Ht as [Ht|Ht].
      * exfalso. exact (Hqueue t Ht Hsrc).
      * apply list_elem_of_singleton in Ht. subst t. reflexivity.
Qed.

(** When nothing queued is a reward, [mine] keeps the two reward checks. *)
Theorem mine_keeps_reward_checks (fuel : nat) (k : string) (c c' : Chain) :
  oneRewardPerBlock c = true →
  notTamperedReward c = true →
  (∀ t, t ∈ pendingTransactions c → source t ≠ None) →
  mine fuel k c = Some (Ok c') →
  oneRewardPerBlock c' = true ∧ notTamperedReward c' = true.
Proof. apply mine_reward_checks. Qed.

(** A transaction without a source in the queue ends up beside the
    miner's reward in the mined block, and the chain is rejected: the
    validator answers [false], unless it throws. *)
Theorem mining_a_queued_reward_is_rejected
    (fuel : nat) (k : string) (c c' : Chain) (t : Transaction) :
  t ∈ pendingTransactions c →
  source t = None →
  mine fuel k c = Some (Ok c') →
  isValidMineableChain c' = Ok (CBool false) ∨ ∃ e, isValidMineableChain c' = Throw e.
Proof.
  intros Ht Hsrc Hm.
  destruct (isValidMineableChain c') as [v|e] eqn:Hv; [left|eauto].
  apply mine_block in Hm as (head & b & _ & Hb & Htxs & _).
  apply isValidMineableChain_value in Hv as [->|(_ & Hone & _)]; [reflexivity|].
  assert (b ∈ blocks c') as Hin.
  { rewrite Hb. apply elem_of_app. right. apply list_elem_of_singleton. reflexivity. }
  pose proof (proj1 (oneRewardPerBlock_true c') Hone b Hin) as Hle.
  rewrite Htxs, filter_length_app in Hle. cbn in Hle.
  assert (0 < length (List.filter isReward (pendingTransactions c)))%nat.
  { apply (filter_length_pos _ _ t Ht). apply isReward_true. exact Hsrc. }
  lia.
Qed.

End MineKeeps.

(** ** The order and the verdict of the replay *)

Lemma foldl_concat (bs : list (list Transaction)) (acc : list Transaction) :
  foldl (λ acc blckTnxs, acc ++ blckTnxs) acc bs = acc ++ concat bs.
Proof.
  revert acc. induction bs as [|b bs IH]; intros acc; cbn.
  - rewrite app_nil_r. reflexivity.
  - rewrite IH, app_assoc. reflexivity.
Qed.

Lemma allTransactions_concat (c : Chain) :
  allTransactions c = concat (map transactions (blocks c)).
Proof. unfold allTransactions. rewrite foldl_concat. reflexivity. Qed.

Lemma allTransactions_blocks_app (c c' : Chain) (more : list Block) :
  blocks c' = blocks c ++ more →
  allTransactions c' = allTransactions c ++ concat (map transactions more).
Proof.
  intros Hb. rewrite !allTransactions_concat, Hb, map_app, concat_app. reflexivity.
Qed.

Lemma and_last_falsy (b : bool) (v : cell) :
  truthy v = false → truthy (and_last b v) = false.
Proof. destruct b; auto. Qed.

Lemma verdict_falsy (c : Chain) (v : cell) :
  truthy (prop (enoughFunds c) "isValid") = false →
  isValidMineableChain c = Ok v →
  truthy v = false.
Proof.
  intros Hf Hv. unfold isValidMineableChain in Hv.
  destruct (validHashes c); [|discriminate]. cbn in Hv. injection Hv as <-.
  apply and_last_falsy. exact Hf.
Qed.

Section Replay.

(** The replay goes through the blocks in chain order and, within a
    block, through its transactions in order; the [i]-th transaction of
    the [j]-th block comes after all transactions of the blocks before. *)
Theorem replay_order (c : Chain) (pre post : list Block) (b : Block) :
  blocks c = pre ++ b :: post →
  allTransactions c
  = concat (map transactions pre) ++ transactions b ++ concat (map transactions post).
Proof.
  intros Hb. rewrite allTransactions_concat, Hb, map_app, concat_app.
  reflexivity.
Qed.

(** Blocks added to a chain whose replay has failed never make it pass. *)
Theorem more_blocks_never_repair (c c' : Chain) (more : list Block) :
  blocks c' = blocks c ++ more →
  truthy (prop (enoughFunds c) "isValid") = false →
  truthy (prop (enoughFunds c') "isValid") = false ∧
  ∀ v, isValidMineableChain c' = Ok v → truthy v = false.
Proof.
  intros Hb Hf.
  assert (truthy (prop (enoughFunds c') "isValid") = false) as Hf';
    [|split; [exact Hf'|intros v Hv; exact (verdict_falsy c' v Hf' Hv)]].
  unfold enoughFunds in *. rewrite (allTransactions_blocks_app c c' more Hb).
  rewrite foldl_app. rewrite replay_invalid by exact Hf. exact Hf.
Qed.

End Replay.

(** ** Balances in the replay *)

Lemma unfunded_initial : unfunded initialState.
Proof.
  intros k Hk. left. unfold prop, initialState.
  rewrite lookup_singleton_ne by congruence. reflexivity.
Qed.

Lemma unfunded_reward (state : gmap string cell) (txn : Transaction) :
  unfunded state → source txn = None → unfunded (replayStep state txn).
Proof.
  intros Hun Hsrc. unfold replayStep, debit, credit. rewrite Hsrc. cbn.
  destruct (truthy (prop state "isValid")); cbn; [|exact Hun].
  intros k Hk. destruct (decide (recipient txn = k)) as [->|Hne].
  - rewrite prop_insert_eq. right. destruct (Hun k Hk) as [-> | ->]; reflexivity.
  - rewrite prop_insert_ne by exact Hne. apply Hun. exact Hk.
Qed.

Lemma unfunded_rewards (state : gmap string cell) (txns : list Transaction) :
  unfunded state → (∀ x, x ∈ txns → source x = None) →
  unfunded (foldl replayStep state txns).
Proof.
  revert state. induction txns as [|t txns IH]; intros state Hun Hall; [exact Hun|].
  cbn [foldl]. apply IH.
  - apply unfunded_reward; [exact Hun|]. apply Hall. left.
  - intros x Hx. apply Hall. right. exact Hx.
Qed.

Lemma unfunded_spend (state : gmap string cell) (txn : Transaction) (src : string) :
  unfunded state →
  source txn = Some src → src ≠ "" → src ≠ "isValid" → amount txn ≠ 0%Z →
  truthy (prop (replayStep state txn) "isValid") = false.
Proof.
  intros Hun Hsrc Hne Hflag Hamt.
  destruct (truthy (prop state "isValid")) eqn:Hv.
  - assert (truthy (prop state src) = false) as Hfalsy.
    { destruct (Hun src Hflag) as [-> | ->]; reflexivity. }
    unfold replayStep, debit, credit. rewrite Hv, Hsrc. cbn.
    apply truthy_str_true in Hne. rewrite Hne, Hfalsy. cbn.
    apply Z.eqb_neq in Hamt. rewrite Hamt.
    rewrite prop_insert_eq. cbn. rewrite prop_insert_eq. reflexivity.
  - rewrite replayStep_invalid by exact Hv. exact Hv.
Qed.


Lemma nonNegative_initial : nonNegative initialState.
Proof.
  intros k n. unfold prop, initialState.
  destruct (decide (k = "isValid")) as [->|Hne].
  - rewrite lookup_singleton_eq. cbn. intros Hn. injection Hn as <-. lia.
  - rewrite lookup_singleton_ne by congruence. discriminate.
Qed.

Lemma to_number_sub (c : cell) (a n : Z) :
  to_number (cell_sub c a) = Some n ↔ ∃ m, to_number c = Some m ∧ n = (m - a)%Z.
Proof.
  unfold cell_sub. destruct (to_number c) as [m|]; cbn.
  - split; [intros Hn; injection Hn as <-; eauto|].
    intros (m' & Hm & ->). injection Hm as <-. reflexivity.
  - split; [discriminate|]. intros (m & Hm & _). discriminate.
Qed.

Lemma to_number_add (c : cell) (a n : Z) :
  to_number (cell_add c a) = Some n ↔ ∃ m, to_number c = Some m ∧ n = (m + a)%Z.
Proof.
  unfold cell_add. destruct (to_number c) as [m|]; cbn.
  - split; [intros Hn; injection Hn as <-; eauto|].
    intros (m' & Hm & ->). injection Hm as <-. reflexivity.
  - split; [discriminate|]. intros (m & Hm & _). discriminate.
Qed.

Lemma cell_ge_spec (c : cell) (a : Z) :
  cell_ge c a = true ↔ ∃ m, to_number c = Some m ∧ (a ≤ m)%Z.
Proof.
  unfold cell_ge. destruct (to_number c) as [m|].
  - rewrite Z.leb_le. split; [eauto|]. intros (m' & Hm & Hle). congruence.
  - split; [discriminate|]. intros (m & Hm & _). discriminate.
Qed.

Lemma nonNegative_insert (state : gmap string cell) (k : string) (v : cell) :
  nonNegative state →
  (∀ n, to_number v = Some n → (0 ≤ n)%Z) →
  nonNegative (<[k := v]> state).
Proof.
  intros Hs Hv k' n. destruct (decide (k = k')) as [->|Hne].
  - rewrite prop_insert_eq. apply Hv.
  - rewrite prop_insert_ne by exact Hne. apply Hs.
Qed.

Lemma nonNegative_debit (state : gmap string cell) (txn : Transaction) :
  nonNegative state → nonNegative (debit state txn).
Proof.
  intros Hs. unfold debit. destruct (truthy_opt (source txn)); [|exact Hs].
  set (src := default "" (source txn)).
  destruct (truthy (prop state src) && cell_ge (prop state src) (amount txn)) eqn:Hok.
  - apply andb_true_iff in Hok as [_ Hge].
    apply cell_ge_spec in Hge as (m & Hm & Hle).
    apply nonNegative_insert; [exact Hs|]. intros n Hn.
    apply to_number_sub in Hn as (m' & Hm' & ->). assert (m' = m) by congruence. lia.
  - destruct (Z.eqb_spec (amount txn) 0) as [Hz|_].
    + apply nonNegative_insert; [exact Hs|]. cbn. intros n Hn.
      injection Hn as <-. lia.
    + apply nonNegative_insert; [exact Hs|]. cbn. intros n Hn.
      injection Hn as <-. lia.
Qed.

Lemma nonNegative_step (state : gmap string cell) (txn : Transaction) :
  (0 ≤ amount txn)%Z → nonNegative state → nonNegative (replayStep state txn).
Proof.
  intros Ha Hs. unfold replayStep. destruct (negb _); [exact Hs|].
  pose proof (nonNegative_debit state txn Hs) as Hd.
  unfold credit. destruct (truthy _); [|exact Hd].
  apply nonNegative_insert; [exact Hd|]. intros n Hn.
  apply to_number_add in Hn as (m & Hm & ->).
  specialize (Hd _ _ Hm). lia.
Qed.

Section Balances.

(** No account can spend what it was only credited with. In a chain
    whose first transaction with a source moves a non-zero amount, that
    transaction makes the replay fail, whatever rewards and amounts came
    first, and the chain is rejected whenever the validator returns. *)
Theorem first_transfer_is_rejected
    (c : Chain) (pre post : list Transaction) (t : Transaction) (src : string) :
  allTransactions c = pre ++ t :: post →
  (∀ x, x ∈ pre → source x = None) →
  source t = Some src → src ≠ "" → src ≠ "isValid" →
  amount t ≠ 0%Z →
  truthy (prop (enoughFunds c) "isValid") = false ∧
  ∀ v, isValidMineableChain c = Ok v → truthy v = false.
Proof.
  intros Htxs Hpre Hsrc Hne Hflag Hamt.
  assert (truthy (prop (enoughFunds c) "isValid") = false) as Hfinal;
    [|split; [exact Hfinal|intros v Hv; exact (verdict_falsy c v Hfinal Hv)]].
  unfold enoughFunds. rewrite Htxs, foldl_app. cbn [foldl].
  assert (truthy (prop (replayStep (foldl replayStep initialState pre) t) "isValid")
          = false) as Hf.
  { apply (unfunded_spend _ t src); try assumption.
    apply unfunded_rewards; [exact unfunded_initial|exact Hpre]. }
  rewrite replay_invalid by exact Hf. exact Hf.
Qed.

(** When no amount is negative, no number the replay stores is negative:
    balances, and the flag should a key alias it, stay at 0 or above. *)
Theorem balances_never_negative (c : Chain) (k : string) (n : Z) :
  (∀ t, t ∈ allTransactions c → (0 ≤ amount t)%Z) →
  prop (enoughFunds c) k = CNum n →
  (0 ≤ n)%Z.
Proof.
  intros Hall Hk.
  assert (∀ txns state, (∀ t, t ∈ txns → (0 ≤ amount t)%Z) → nonNegative state →
            nonNegative (foldl replayStep state txns)) as Hfold.
  { induction txns as [|t txns IH]; intros state Ha Hs; [exact Hs|].
    cbn [foldl]. apply IH.
    - intros x Hx. apply Ha. right. exact Hx.
    - apply nonNegative_step; [apply Ha; left|exact Hs]. }
  apply (Hfold (allTransactions c) initialState Hall nonNegative_initial k).
  unfold enoughFunds in Hk. rewrite Hk. reflexivity.
Qed.

(** A transfer between two ordinary keys, met while the replay is valid,
    keeps it valid exactly when the amount is 0 or the source's balance is
    a number other than 0 that covers the amount. *)
Theorem transfer_accepted_iff (state : gmap string cell) (txn : Transaction) (src : string) :
  truthy (prop state "isValid") = true →
  source txn = Some src → src ≠ "" → src ≠ "isValid" →
  recipient txn ≠ "isValid" →
  (truthy (prop (replayStep state txn) "isValid") = true ↔
   amount txn = 0%Z ∨
   ∃ n, to_number (prop state src) = Some n ∧ n ≠ 0%Z ∧ (amount txn ≤ n)%Z).
Proof.
  intros Hv Hsrc Hne Hflag Hrcp.
  unfold replayStep, debit. rewrite Hv, Hsrc. cbn.
  apply truthy_str_true in Hne. rewrite Hne.
  assert (∀ st, truthy (prop (credit st txn) "isValid") = truthy (prop st "isValid"))
    as Hcredit.
  { intros st. unfold credit. destruct (truthy (prop st "isValid")) eqn:Hst;
      [|exact Hst]. rewrite prop_insert_ne by exact Hrcp. exact Hst. }
  rewrite Hcredit.
  destruct (truthy (prop state src) && cell_ge (prop state src) (amount txn)) eqn:Hok.
  - rewrite prop_insert_ne by exact Hflag. split; [intros _|intros _; exact Hv].
    apply andb_true_iff in Hok as [Ht Hge].
    apply cell_ge_spec in Hge as (n & Hn & Hle). right. exists n.
    repeat split; try assumption. intros ->.
    destruct (prop state src) as [|[|]|m|]; cbn in *; try discriminate.
    injection Hn as ->. discriminate.
  - destruct (Z.eqb_spec (amount txn) 0) as [Hz|Hnz].
    + rewrite prop_insert_ne by exact Hflag. split; [auto|intros _; exact Hv].
    + rewrite prop_insert_eq. cbn. split; [discriminate|].
      intros [Hz|(n & Hn & Hn0 & Hle)]; [contradiction|].
      apply andb_false_iff in Hok as [Hf|Hf].
      * destruct (prop state src) as [|[|]|m|]; cbn in *; try discriminate.
        -- injection Hn as <-. contradiction.
        -- injection Hn as ->. apply negb_false_iff, Z.eqb_eq in Hf. contradiction.
      * assert (cell_ge (prop state src) (amount txn) = true)
          by (apply cell_ge_spec; eauto). congruence.
Qed.

End Balances.

(** ** Chains that were only mined *)

Lemma replay_rewards_flag (state : gmap string cell) (txns : list Transaction) :
  prop state "isValid" = CBool true →
  (∀ t, t ∈ txns → source t = None ∧ recipient t ≠ "isValid") →
  prop (foldl replayStep state txns) "isValid" = CBool true.
Proof.
  revert state. induction txns as [|t txns IH]; intros state Hv Hall; [exact Hv|].
  cbn [foldl]. apply IH; [|intros x Hx; apply Hall; right; exact Hx].
  destruct (Hall t) as [Hsrc Hrcp]; [left|].
  rewrite replayStep_reward; [|rewrite Hv; reflexivity|exact Hsrc].
  rewrite prop_insert_ne by exact Hrcp. exact Hv.
Qed.

Section MinedOnly.
Context `{Signing} `{Hashing}.

Lemma minedOnly_new : minedOnly newMineableChain.
Proof.
  split; [reflexivity|]. split; [reflexivity|]. split; [reflexivity|].
  split; [reflexivity|]. intros t Ht. cbn in Ht. inversion Ht.
Qed.

Lemma minedOnly_mine (fuel : nat) (k : string) (c c' : Chain) :
  getPublicKey k ≠ "isValid" →
  minedOnly c →
  mine fuel k c = Some (Ok c') →
  minedOnly c'.
Proof.
  intros Hk (Hq & Hvh & Hone & Hnt & Hall) Hm.
  assert (∀ t, t ∈ pendingTransactions c → source t ≠ None) as Hnone.
  { rewrite Hq. intros t Ht. inversion Ht. }
  destruct (mine_reward_checks fuel k c c' Hone Hnt Hnone Hm) as [Hone' Hnt'].
  pose proof (mine_validHashes fuel k c c' Hvh Hm) as Hvh'.
  apply mine_block in Hm as (head & b & _ & Hb & Htxs & _ & _ & _ & _ & Hq').
  split; [exact Hq'|]. split; [exact Hvh'|]. split; [exact Hone'|].
  split; [exact Hnt'|]. intros t Ht.
  rewrite (allTransactions_blocks_app c c' [b] Hb) in Ht.
  apply elem_of_app in Ht as [Hin|Hin]; [apply Hall; exact Hin|].
  cbn in Hin. rewrite app_nil_r, Htxs, Hq in Hin. cbn in Hin.
  apply list_elem_of_singleton in Hin. subst t. split; [reflexivity|exact Hk].
Qed.

Lemma minedOnly_mineEach (fuel : nat) (keys : list string) (c c' : Chain) :
  (∀ k, k ∈ keys → getPublicKey k ≠ "isValid") →
  minedOnly c →
  mineEach fuel keys c = Some (Ok c') →
  minedOnly c'.
Proof.
  revert c. induction keys as [|k keys IH]; intros c Hkeys Hc Hm; cbn in Hm.
  - injection Hm as <-. exact Hc.
  - destruct (mine fuel k c) as [[c1|e]|] eqn:Hk; try discriminate.
    apply (IH c1); [intros k' Hk'; apply Hkeys; right; exact Hk'| |exact Hm].
    apply (minedOnly_mine fuel k c c1); [apply Hkeys; left|exact Hc|exact Hk].
Qed.

(** A chain that was only mined is accepted: starting from a new chain
    and calling [mine] any number of times with nothing queued gives a
    chain on which [isValidMineableChain] returns [true]. The new chain
    itself is the case of no call. *)
Theorem mined_only_chain_is_valid (fuel : nat) (keys : list string) (c : Chain) :
  (∀ k, k ∈ keys → getPublicKey k ≠ "isValid") →
  mineEach fuel keys newMineableChain = Some (Ok c) →
  isValidMineableChain c = Ok (CBool true).
Proof.
  intros Hkeys Hm.
  destruct (minedOnly_mineEach fuel keys newMineableChain c Hkeys minedOnly_new Hm)
    as (_ & Hvh & Hone & Hnt & Hall).
  unfold isValidMineableChain. rewrite Hvh, Hone, Hnt. cbn.
  unfold enoughFunds. rewrite replay_rewards_flag; [reflexivity|reflexivity|exact Hall].
Qed.

End MinedOnly.

(** ** [breakChain] *)

Lemma map_imap_same {A B : Type} (h : A → B) (g : nat → A → A) (l : list A) :
  (∀ i x, h (g i x) = h x) → map h (imap g l) = map h l.
Proof.
  revert g. induction l as [|x l IH]; intros g Hg; [reflexivity|].
  cbn. rewrite Hg. f_equal. apply IH. intros i y. apply Hg.
Qed.

Lemma filter_length_imap_same {A : Type} (h : A → bool) (g : nat → A → A) (l : list A) :
  (∀ i x, h (g i x) = h x) →
  length (List.filter h (imap g l)) = length (List.filter h l).
Proof.
  revert g. induction l as [|x l IH]; intros g Hg; [reflexivity|].
  cbn. rewrite Hg. destruct (h x); cbn; [f_equal|]; apply IH; intros i y; apply Hg.
Qed.

Lemma filter_length_map {A B : Type} (f : B → bool) (g : A → B) (l : list A) :
  length (List.filter f (map g l)) = length (List.filter (λ x, f (g x)) l).
Proof.
  induction l as [|x l IH]; [reflexivity|].
  cbn. destruct (f (g x)); cbn; [f_equal|]; exact IH.
Qed.

Lemma filter_length_ext {A : Type} (f g : A → bool) (l : list A) :
  (∀ x, f x = g x) → length (List.filter f l) = length (List.filter g l).
Proof.
  intros Hfg. induction l as [|x l IH]; [reflexivity|].
  cbn. rewrite Hfg. destruct (g x); cbn; [f_equal|]; exact IH.
Qed.

Lemma map_result_map {A B C : Type} (f : B → result C) (g : A → B) (l : list A) :
  map_result f (map g l) = map_result (λ x, f (g x)) l.
Proof.
  induction l as [|x l IH]; [reflexivity|].
  cbn [map map_result]. rewrite IH. reflexivity.
Qed.

Lemma drop_map {A B : Type} (g : A → B) (n : nat) (l : list A) :
  drop n (map g l) = map g (drop n l).
Proof.
  revert n. induction l as [|x l IH]; intros [|n]; try reflexivity. cbn. apply IH.
Qed.

Section BreakChain.
Context `{Signing} `{Hashing}.

(** [breakChain] changes nothing that the proof-of-work check, the two
    reward checks and the link check look at: each of them gives on the
    broken chain the answer it gave before. Tampering by [breakChain] can
    only show in the hash and signature checks and in the replay. *)
Theorem breakChain_unseen_by_block_checks
    (privateKey : string) (rolls : nat → Z) (c : Chain) :
  let broken := breakChain privateKey rolls c in
  validHashes broken = validHashes c ∧
  oneRewardPerBlock broken = oneRewardPerBlock c ∧
  notTamperedReward broken = notTamperedReward c ∧
  (brokenLink broken ↔ brokenLink c).
Proof.
  set (g := λ (i : nat) block, breakBlock (getPublicKey privateKey) (rolls i) block).
  cbn zeta. unfold breakChain. fold g. repeat split.
  - unfold validHashes. cbn [blocks difficulty].
    rewrite <- (map_result_map (λ h, leadingZeros h (difficulty c)) hash).
    rewrite <- (map_result_map (λ h, leadingZeros h (difficulty c)) hash
                  (drop 1 (blocks c))).
    rewrite <- !drop_map. rewrite map_imap_same; reflexivity.
  - unfold oneRewardPerBlock. cbn [blocks]. rewrite map_imap_same; [reflexivity|].
    intros i b. cbn [g breakBlock transactions].
    rewrite filter_length_map. reflexivity.
  - unfold notTamperedReward. cbn [blocks reward].
    rewrite !filter_length_map. rewrite filter_length_imap_same; [reflexivity|].
    intros i b. cbn [g breakBlock transactions].
    rewrite filter_length_map. reflexivity.
  - intros (i & b1 & b2 & H1 & H2 & Hne). cbn [blocks] in H1, H2.
    rewrite list_lookup_imap in H1, H2.
    destruct (blocks c !! i) as [a1|] eqn:Ha1; [|discriminate].
    destruct (blocks c !! S i) as [a2|] eqn:Ha2; [|discriminate].
    injection H1 as <-. injection H2 as <-. exists i, a1, a2. auto.
  - intros (i & b1 & b2 & H1 & H2 & Hne).
    exists i, (g i b1), (g (S i) b2). cbn [blocks].
    rewrite !list_lookup_imap, H1, H2. auto.
Qed.

Lemma breakChain_allTransactions (privateKey : string) (rolls : nat → Z) (c : Chain) :
  allTransactions (breakChain privateKey rolls c)
  = map (breakTransaction (getPublicKey privateKey)) (allTransactions c).
Proof.
  rewrite !allTransactions_concat. unfold breakChain. cbn [blocks].
  assert (∀ (l : list Block) (g : nat → Block → Block),
            (∀ i b, transactions (g i b)
                    = map (breakTransaction (getPublicKey privateKey)) (transactions b)) →
            concat (map transactions (imap g l))
            = map (breakTransaction (getPublicKey privateKey))
                  (concat (map transactions l))) as Hgen.
  { induction l as [|b l IH]; intros g Hg; [reflexivity|].
    cbn. rewrite map_app, Hg. f_equal. apply IH. intros i b'. apply Hg. }
  apply Hgen. intros i b. reflexivity.
Qed.

(** After [breakChain] the blocks hold as many transactions as before, in
    the same order; the transaction at each position pays the drawn public
    key and has the source, the amount and the signature of the one that
    was there. *)
Theorem breakChain_redirects_every_transaction
    (privateKey : string) (rolls : nat → Z) (c : Chain) :
  let broken := breakChain privateKey rolls c in
  length (allTransactions broken) = length (allTransactions c) ∧
  ∀ i t, allTransactions c !! i = Some t →
    ∃ t', allTransactions broken !! i = Some t' ∧
          recipient t' = getPublicKey privateKey ∧
          source t' = source t ∧
          amount t' = amount t ∧
          signature t' = signature t.
Proof.
  cbn zeta. rewrite breakChain_allTransactions.
  change (map (breakTransaction (getPublicKey privateKey)) (allTransactions c))
    with (breakTransaction (getPublicKey privateKey) <$> allTransactions c).
  split; [apply length_fmap|].
  intros i t Ht. exists (breakTransaction (getPublicKey privateKey) t).
  rewrite list_lookup_fmap, Ht. repeat split.
Qed.

End BreakChain.

(** * Addresses *)

Lemma slice0_length (n : nat) (s : string) :
  (n ≤ String.length s)%nat → String.length (slice0 n s) = n.
Proof.
  unfold slice0. revert s. induction n as [|n IH]; intros s Hn.
  - destruct s; reflexivity.
  - destruct s as [|a s]; cbn in *; [lia|]. f_equal. apply IH. lia.
Qed.

Lemma slice0_append (n : nat) (s t : string) :
  String.length s = n → slice0 n (s +:+ t) = s.
Proof.
  unfold slice0. revert s. induction n as [|n IH]; intros s Hn.
  - destruct s; [|discriminate]. destruct t; reflexivity.
  - destruct s as [|a s]; [discriminate|]. rewrite append_cons. cbn.
    f_equal. apply IH. cbn in Hn. lia.
Qed.

Lemma padTo_length (n : nat) (s : string) : String.length (padTo n s) = n.
Proof.
  revert s. induction n as [|n IH]; intros s; [reflexivity|].
  destruct s; cbn; f_equal; apply IH.
Qed.

Lemma isValidAddress_string (s : string) :
  isValidAddress (JString s) = Ok true ↔
  String.length s = 70%nat ∧ ∃ rest, s = NAMESPACE +:+ rest.
Proof.
  cbn. split.
  - intros Hok. injection Hok as Hok. apply andb_true_iff in Hok as [Hlen Hns].
    apply Nat.eqb_eq in Hlen. split; [exact Hlen|].
    apply String.eqb_eq in Hns.
    destruct s as [|c1 [|c2 [|c3 [|c4 [|c5 [|c6 rest]]]]]]; try discriminate.
    cbn in Hns. injection Hns as -> -> -> -> -> ->. exists rest. reflexivity.
  - intros (Hlen & rest & ->). f_equal. apply andb_true_iff. split.
    + apply Nat.eqb_eq. exact Hlen.
    + apply String.eqb_eq. apply slice0_append. reflexivity.
Qed.

Section AddressProperties.
Context `{Sha512}.

(** [isValidAddress] accepts a string exactly when it has 70 characters
    and starts with the namespace. The 64 characters after the namespace
    are not looked at: they need not be hexadecimal digits. *)
Theorem isValidAddress_accepts_iff (s : string) :
  isValidAddress (JString s) = Ok true ↔
  String.length s = 70%nat ∧ ∃ rest, s = NAMESPACE +:+ rest.
Proof. apply isValidAddress_string. Qed.

(** Every address the three builders return passes [isValidAddress],
    given that digests have the 128 characters of a hexadecimal SHA-512. *)
Theorem built_addresses_are_valid (publicKey dna : string) :
  (∀ x, String.length (get512Hash x) = 128%nat) →
  isValidAddress (JString (getCollectionAddress publicKey)) = Ok true ∧
  isValidAddress (JString (getMojiAddress publicKey dna)) = Ok true ∧
  isValidAddress (JString (getSireAddress publicKey)) = Ok true.
Proof.
  intros Hlen.
  assert (∀ n x, (n ≤ 128)%nat → String.length (slice0 n (get512Hash x)) = n) as Hs.
  { intros n x Hn. apply slice0_length. rewrite Hlen. exact Hn. }
  repeat split; apply isValidAddress_string; (split; [|eexists; reflexivity]).
  - unfold getCollectionAddress. rewrite !append_length, Hs by lia. reflexivity.
  - unfold getMojiAddress. rewrite !append_length, !Hs by lia. reflexivity.
  - unfold getSireAddress. rewrite !append_length, Hs by lia. reflexivity.
Qed.

(** Addresses of different kinds never coincide, whatever the keys and
    the digests: the two characters after the namespace tell them apart. *)
Theorem address_kinds_are_disjoint (k1 k2 k3 dna : string) :
  getCollectionAddress k1 ≠ getMojiAddress k2 dna ∧
  getCollectionAddress k1 ≠ getSireAddress k3 ∧
  getMojiAddress k2 dna ≠ getSireAddress k3.
Proof.
  repeat split; intros Heq;
    cbv [getCollectionAddress getMojiAddress getSireAddress NAMESPACE
         PREFIXES_COLLECTION PREFIXES_MOJI PREFIXES_SIRE_LISTING String.append] in Heq;
    discriminate.
Qed.

(** All moji addresses of one owner start with the same 16 characters:
    the namespace, the moji prefix and 8 characters of the owner's digest,
    provided that digest has at least 8 characters. *)
Theorem moji_addresses_share_owner_prefix (ownerKey dna1 dna2 : string) :
  (8 ≤ String.length (get512Hash ownerKey))%nat →
  slice0 16 (getMojiAddress ownerKey dna1) = slice0 16 (getMojiAddress ownerKey dna2) ∧
  slice0 16 (getMojiAddress ownerKey dna1)
  = NAMESPACE +:+ PREFIXES_MOJI +:+ slice0 8 (get512Hash ownerKey).
Proof.
  intros Hlen.
  assert (∀ dna, slice0 16 (getMojiAddress ownerKey dna)
                 = NAMESPACE +:+ PREFIXES_MOJI +:+ slice0 8 (get512Hash ownerKey)) as Hp.
  { intros dna. unfold getMojiAddress.
    rewrite <- (append_assoc PREFIXES_MOJI), <- (append_assoc NAMESPACE).
    rewrite <- (append_assoc NAMESPACE PREFIXES_MOJI).
    apply slice0_append. rewrite !append_length, slice0_length by exact Hlen.
    reflexivity. }
  rewrite !Hp. split; reflexivity.
Qed.

End AddressProperties.

(** * Moji DNA *)

Lemma append_nil_r (s : string) : s +:+ "" = s.
Proof. induction s as [|a s IH]; [reflexivity|]. rewrite append_cons, IH. reflexivity. Qed.

Lemma recombineLoop_stop (fuel : nat) (t : Z) (sire breeder child : string) :
  (t ≤ 0)%Z → recombineLoop fuel t sire breeder child = child.
Proof.
  intros Ht. destruct fuel; [reflexivity|]. cbn.
  destruct (Z.ltb_spec 0 t); [lia|reflexivity].
Qed.

Lemma recombineLoop_even (sire breeder : string) (m fuel : nat) (child : string) :
  (m ≤ fuel)%nat →
  recombineLoop fuel (2 * Z.of_nat m) sire breeder child
  = child +:+ pairsDown m sire breeder.
Proof.
  revert fuel child. induction m as [|m IH]; intros fuel child Hfuel.
  - rewrite recombineLoop_stop by lia. cbn. rewrite append_nil_r. reflexivity.
  - destruct fuel as [|fuel]; [lia|]. cbn [recombineLoop].
    destruct (Z.ltb_spec 0 (2 * Z.of_nat (S m))) as [_|Hle]; [|lia].
    replace (2 * Z.of_nat (S m) - 2)%Z with (2 * Z.of_nat m)%Z by lia.
    rewrite IH by lia. cbn [pairsDown]. rewrite append_assoc. reflexivity.
Qed.

Lemma charAtHalf_odd (str : string) (t : Z) : Z.odd t = true → charAtHalf str t = None.
Proof.
  intros Hodd. unfold charAtHalf. rewrite <- Z.negb_odd, Hodd. reflexivity.
Qed.

Lemma recombineLoop_odd (sire breeder : string) (m fuel : nat) (child : string) :
  (S m ≤ fuel)%nat →
  recombineLoop fuel (2 * Z.of_nat m + 1) sire breeder child
  = child +:+ nans (S m).
Proof.
  revert fuel child. induction m as [|m IH]; intros fuel child Hfuel;
    (destruct fuel as [|fuel]; [lia|]); cbn [recombineLoop].
  - cbn. rewrite recombineLoop_stop by lia. reflexivity.
  - destruct (Z.ltb_spec 0 (2 * Z.of_nat (S m) + 1)) as [_|Hle]; [|lia].
    replace (2 * Z.of_nat (S m) + 1 - 2)%Z with (2 * Z.of_nat m + 1)%Z by lia.
    rewrite !charAtHalf_odd by (rewrite Z.add_comm, Z.odd_add_mul_2; reflexivity).
    rewrite IH by lia. rewrite append_assoc. reflexivity.
Qed.

Lemma recombineDNA_even (sire breeder : string) (n : nat) :
  String.length sire = (2 * n)%nat →
  recombineDNA sire breeder = pairsDown n sire breeder.
Proof.
  intros Hlen. unfold recombineDNA. rewrite Hlen.
  replace (Z.of_nat (2 * n)) with (2 * Z.of_nat n)%Z by lia.
  rewrite recombineLoop_even by lia. reflexivity.
Qed.

Lemma charAtHalf_whole (str : string) (i : nat) :
  charAtHalf str (2 * Z.of_nat i)
  = match String.get i str with Some a => Some (String a "") | None => None end.
Proof.
  unfold charAtHalf. rewrite Z.even_mul. cbn [Z.even orb].
  destruct (Z.leb_spec 0 (2 * Z.of_nat i)) as [_|Hneg]; [|lia]. cbn.
  replace (2 * Z.of_nat i / 2)%Z with (Z.of_nat i) by (rewrite Z.mul_comm, Z.div_mul; lia).
  rewrite Nat2Z.id. reflexivity.
Qed.

Lemma get_Some_lt (i : nat) (s : string) : (i < String.length s)%nat → ∃ a, String.get i s = Some a.
Proof.
  revert i. induction s as [|c s IH]; intros i Hi; cbn in Hi; [lia|].
  destruct i; cbn; [eauto|]. apply IH. lia.
Qed.

Lemma pairsDown_step (sire breeder : string) (m : nat) :
  (m < String.length sire)%nat → (m < String.length breeder)%nat →
  ∃ a b, String.get m sire = Some a ∧ String.get m breeder = Some b ∧
         pairsDown (S m) sire breeder = String a (String b (pairsDown m sire breeder)).
Proof.
  intros Hs Hb.
  destruct (get_Some_lt m sire Hs) as [a Ha], (get_Some_lt m breeder Hb) as [b Hb'].
  exists a, b. repeat split; try assumption.
  cbn [pairsDown]. rewrite !charAtHalf_whole, Ha, Hb'. reflexivity.
Qed.

Lemma pairsDown_spec (sire breeder : string) (m : nat) :
  (m ≤ String.length sire)%nat → (m ≤ String.length breeder)%nat →
  String.length (pairsDown m sire breeder) = (2 * m)%nat ∧
  ∀ j, (j < m)%nat →
    String.get (2 * j) (pairsDown m sire breeder) = String.get (m - 1 - j) sire ∧
    String.get (2 * j + 1) (pairsDown m sire breeder) = String.get (m - 1 - j) breeder.
Proof.
  induction m as [|m IH]; intros Hs Hb.
  - split; [reflexivity|]. intros j Hj. lia.
  - destruct (pairsDown_step sire breeder m) as (a & b & Ha & Hb' & ->); try lia.
    destruct IH as [Hlen Hget]; try lia. split; [cbn; lia|].
    intros [|j] Hj.
    + cbn [Nat.mul Nat.add String.get].
      replace (S m - 1 - 0)%nat with m by lia. auto.
    + replace (2 * S j)%nat with (S (S (2 * j))) by lia.
      replace (S (S (2 * j)) + 1)%nat with (S (S (2 * j + 1))) by lia.
      cbn [String.get]. replace (S m - 1 - S j)%nat with (m - 1 - j)%nat by lia.
      apply Hget. lia.
Qed.

Lemma pairsDown_ext (s s' b b' : string) (m : nat) :
  (∀ i, (i < m)%nat → String.get i s = String.get i s' ∧ String.get i b = String.get i b') →
  pairsDown m s b = pairsDown m s' b'.
Proof.
  induction m as [|m IH]; intros Hget; [reflexivity|].
  cbn [pairsDown]. rewrite !charAtHalf_whole.
  destruct (Hget m) as [-> ->]; [lia|]. f_equal. apply IH.
  intros i Hi. apply Hget. lia.
Qed.

Lemma get_slice0 (n i : nat) (s : string) :
  (i < n)%nat → String.get i (slice0 n s) = String.get i s.
Proof.
  unfold slice0. revert i s. induction n as [|n IH]; intros i s Hi; [lia|].
  destruct s as [|a s]; [reflexivity|]. cbn.
  destruct i; [reflexivity|]. apply IH. lia.
Qed.

Section MojiDNA.

(** For a sire of even length [2 * n] and a breeder of at least [n]
    characters, the child has the sire's length and is made of the first
    halves of both, read backwards and interleaved: characters [2 * j] and
    [2 * j + 1] of the child are character [n - 1 - j] of the sire and of
    the breeder. *)
Theorem recombineDNA_interleaves (sire breeder : string) (n : nat) :
  String.length sire = (2 * n)%nat →
  (n ≤ String.length breeder)%nat →
  String.length (recombineDNA sire breeder) = String.length sire ∧
  ∀ j, (j < n)%nat →
    String.get (2 * j) (recombineDNA sire breeder) = String.get (n - 1 - j) sire ∧
    String.get (2 * j + 1) (recombineDNA sire breeder) = String.get (n - 1 - j) breeder.
Proof.
  intros Hlen Hb. rewrite (recombineDNA_even sire breeder n Hlen), Hlen.
  apply pairsDown_spec; lia.
Qed.

(** The second half of either parent's DNA has no influence on the child:
    parents of the same even length that agree on their first halves give
    the same child. *)
Theorem recombineDNA_ignores_second_halves (sire sire' breeder breeder' : string) (n : nat) :
  String.length sire = (2 * n)%nat →
  String.length sire' = (2 * n)%nat →
  slice0 n sire = slice0 n sire' →
  slice0 n breeder = slice0 n breeder' →
  recombineDNA sire breeder = recombineDNA sire' breeder'.
Proof.
  intros Hlen Hlen' Hs Hb.
  rewrite (recombineDNA_even sire breeder n Hlen).
  rewrite (recombineDNA_even sire' breeder' n Hlen').
  apply pairsDown_ext. intros i Hi. split.
  - rewrite <- (get_slice0 n i sire Hi), <- (get_slice0 n i sire' Hi), Hs. reflexivity.
  - rewrite <- (get_slice0 n i breeder Hi), <- (get_slice0 n i breeder' Hi), Hb.
    reflexivity.
Qed.

(** For a sire of odd length the index is never a whole number, every
    read gives [undefined], and the child is ["NaN"] once per round,
    whatever the parents hold. *)
Theorem recombineDNA_odd_length (sire breeder : string) (m : nat) :
  String.length sire = (2 * m + 1)%nat →
  recombineDNA sire breeder = nans (S m).
Proof.
  intros Hlen. unfold recombineDNA. rewrite Hlen.
  replace (Z.of_nat (2 * m + 1)) with (2 * Z.of_nat m + 1)%Z by lia.
  rewrite recombineLoop_odd by lia. reflexivity.
Qed.

End MojiDNA.

Lemma drawLoop_last (randomizer : nat → string) (n calls : nat) (nonce : option string) :
  drawLoop randomizer (S n) calls nonce = Some (randomizer (calls + n)%nat).
Proof.
  revert calls nonce. induction n as [|n IH]; intros calls nonce.
  - cbn. rewrite Nat.add_0_r. reflexivity.
  - change (drawLoop randomizer (S (S n)) calls nonce)
      with (drawLoop randomizer (S n) (S calls) (Some (randomizer calls))).
    rewrite IH. replace (S calls + n)%nat with (calls + S n)%nat by lia. reflexivity.
Qed.

Section CreateDNA.
Context `{Sha512} `{Prng}.

(** With an index of 0 or less no number is drawn: the DNA is cut from
    the digest of the owner followed by ["undefined"], and is the same for
    every seed. *)
Theorem createDNA_without_draw (owner : string) (index : Z) (seed : option string) :
  (index ≤ 0)%Z →
  createDNA owner index seed = slice0 36 (get512Hash (owner +:+ "undefined")).
Proof.
  intros Hi. unfold createDNA. replace (Z.to_nat index) with 0%nat by lia.
  reflexivity.
Qed.

(** With a positive index the DNA is cut from the digest of the owner
    followed by the last of [index] draws; the generator is seeded with
    the seed, or with the owner when the seed is missing or empty. *)
Theorem createDNA_uses_last_draw (owner : string) (index : Z) (seed : option string) :
  (0 < index)%Z →
  createDNA owner index seed
  = slice0 36 (get512Hash
      (owner +:+ draws (if truthy_opt seed then default "" seed else owner)
                       (Z.to_nat index - 1))).
Proof.
  intros Hi. unfold createDNA.
  replace (Z.to_nat index) with (S (Z.to_nat index - 1)) at 1 by lia.
  rewrite drawLoop_last. reflexivity.
Qed.

End CreateDNA.

(** * More on validation and mining *)

Section MoreValidation.
Context `{Signing} `{Hashing}.

Lemma isValidBlock_invalid_transaction (b : Block) (t : Transaction) :
  t ∈ transactions b → isValidTransaction t = false → isValidBlock b = false.
Proof.
  intros Ht Hbad. unfold isValidBlock. apply andb_false_iff. left.
  apply negb_false_iff, includes_false_map. eauto.
Qed.

Lemma isValidChain_invalid_block (c : Chain) (b : Block) :
  b ∈ blocks c → isValidBlock b = false → isValidChain c = Ok false.
Proof.
  intros Hb Hbad. unfold isValidChain.
  destruct (blocks c) as [|g rest] eqn:Hblocks; [inversion Hb|].
  destruct (_ || _); [reflexivity|]. f_equal.
  apply andb_false_iff. left. apply andb_false_iff. right.
  apply negb_false_iff, (includes_false_map isValidBlock (g :: rest)). eauto.
Qed.

(** A negative amount anywhere in the blocks makes [isValidChain] answer
    [false], whatever the signatures and hashes are. *)
Theorem negative_amount_fails_isValidChain (c : Chain) (b : Block) (t : Transaction) :
  b ∈ blocks c →
  t ∈ transactions b →
  (amount t < 0)%Z →
  isValidChain c = Ok false.
Proof.
  intros Hb Ht Hneg. apply (isValidChain_invalid_block c b Hb).
  apply (isValidBlock_invalid_transaction b t Ht).
  unfold isValidTransaction. apply Z.ltb_lt in Hneg. rewrite Hneg. reflexivity.
Qed.

(** The two ways [mine] throws. On a chain without blocks it throws a
    [TypeError] before anything is hashed. With a negative difficulty it
    throws a [RangeError] as soon as a digest is a non-empty string, which
    the one for nonce 0 is for any real digest. *)
Theorem mine_throws (fuel : nat) (k : string) (c : Chain) :
  (blocks c = [] → mine fuel k c = Some (Throw TypeError)) ∧
  (∀ head,
     getHeadBlock c = Some head →
     (difficulty c < 0)%Z →
     digest (pendingTransactions c ++ [MineableTransaction k None (reward c)])
            (hash head) (Some 0%Z) ≠ "" →
     mine (S fuel) k c = Some (Throw RangeError)).
Proof.
  split.
  - intros Hnil. unfold mine, mine_begin, getHeadBlock. rewrite Hnil. reflexivity.
  - intros head Hhead Hd Hne. unfold mine, mine_begin. rewrite Hhead.
    cbn [difficulty]. cbn [pow_search]. rewrite accepted_MineableBlock.
    assert (accepted
              (calculateHash
                 (MineableBlock
                    (pendingTransactions c ++ [MineableTransaction k None (reward c)])
                    (hash head)) 0) (difficulty c) = Throw RangeError) as Hthrow.
    { unfold accepted. cbn [hash calculateHash truthy_hash].
      apply truthy_str_true in Hne. cbn [transactions previousHash MineableBlock newBlock
        calculateHash]. rewrite Hne. unfold leadingZeros.
      apply Z.ltb_lt in Hd. rewrite Hd. reflexivity. }
    destruct fuel; cbn [pow_search]; rewrite Hthrow; reflexivity.
Qed.

(** Mining with nothing queued keeps an accepted chain accepted. *)
Theorem mining_empty_queue_keeps_valid (fuel : nat) (k : string) (c c' : Chain) :
  isValidMineableChain c = Ok (CBool true) →
  pendingTransactions c = [] →
  getPublicKey k ≠ "isValid" →
  mine fuel k c = Some (Ok c') →
  isValidMineableChain c' = Ok (CBool true).
Proof.
  intros Hv Hq Hk Hm.
  apply isValidMineableChain_value in Hv as [Hv|(Hvh & Hone & Hnt & Hflag)];
    [discriminate|].
  assert (∀ t, t ∈ pendingTransactions c → source t ≠ None) as Hnone.
  { rewrite Hq. intros t Ht. inversion Ht. }
  destruct (mine_reward_checks fuel k c c' Hone Hnt Hnone Hm) as [Hone' Hnt'].
  pose proof (mine_validHashes fuel k c c' Hvh Hm) as Hvh'.
  apply mine_block in Hm as (head & b & _ & Hb & Htxs & _).
  unfold isValidMineableChain. rewrite Hvh', Hone', Hnt'. cbn. f_equal.
  unfold enoughFunds in *. rewrite (allTransactions_blocks_app c c' [b] Hb).
  cbn [map concat]. rewrite app_nil_r, Htxs, Hq. cbn [app].
  rewrite foldl_app. cbn [foldl].
  rewrite replayStep_reward; [|rewrite <- Hflag; reflexivity|reflexivity].
  rewrite prop_insert_ne by exact Hk. symmetry. exact Hflag.
Qed.

End MoreValidation.

Section Transfer.

(** An accepted transfer between two different ordinary keys with numeric
    balances moves the amount: the source goes down by it, the recipient up
    by it, and the replay stays valid. The balances, the amount and the two
    results are integers that JavaScript numbers hold exactly. *)
Theorem transfer_moves_amount
    (state : gmap string cell) (txn : Transaction) (src : string) (n m : Z) :
  truthy (prop state "isValid") = true →
  source txn = Some src → src ≠ "" → src ≠ "isValid" →
  recipient txn ≠ "isValid" → recipient txn ≠ src →
  prop state src = CNum n → n ≠ 0%Z → (amount txn ≤ n)%Z →
  prop state (recipient txn) = CNum m →
  safeInteger n → safeInteger m → safeInteger (amount txn) →
  safeInteger (n - amount txn) → safeInteger (m + amount txn) →
  let state' := replayStep state txn in
  truthy (prop state' "isValid") = true ∧
  prop state' src = CNum (n - amount txn) ∧
  prop state' (recipient txn) = CNum (m + amount txn).
Proof.
  intros Hv Hsrc Hne Hflag Hrf Hrs Hn Hn0 Hle Hm _ _ _ _ _.
  assert (debit state txn = <[src := CNum (n - amount txn)]> state) as Hdebit.
  { unfold debit. rewrite Hsrc. cbn. apply truthy_str_true in Hne. rewrite Hne, Hn.
    cbn. apply Z.eqb_neq in Hn0. rewrite Hn0. cbn.
    apply Z.leb_le in Hle. rewrite Hle. reflexivity. }
  cbn zeta. unfold replayStep, credit. rewrite Hv, Hdebit. cbn [negb].
  rewrite (prop_insert_ne _ src "isValid") by exact Hflag. rewrite Hv.
  rewrite (prop_insert_ne _ src (recipient txn)) by congruence. rewrite Hm.
  repeat split.
  - rewrite !prop_insert_ne by congruence. exact Hv.
  - rewrite prop_insert_ne by exact Hrs. apply prop_insert_eq.
  - apply prop_insert_eq.
Qed.

End Transfer.

(** * Instances of the further properties *)

Lemma leadingZeros_weaken_witness : leadingZeros (HStr "00ab") 1 = Ok true.
Proof. apply (leadingZeros_weaken (HStr "00ab") 2 1); [lia|reflexivity]. Defined.

Lemma leadingZeros_short_witness : leadingZeros (HStr "0") 2 = Ok false.
Proof. apply (leadingZeros_short "0" 2); [lia|cbn; lia]. Defined.

Lemma isValidMineableChain_answers_witness :
  ∃ v, isValidMineableChain demoTwoRewards = Ok v.
Proof.
  apply (proj2 (isValidMineableChain_answers demoTwoRewards)). right.
  split; [cbn; lia|]. intros b Hb. cbn in Hb.
  apply list_elem_of_singleton in Hb. subst b. eexists. reflexivity.
Defined.

Lemma two_rewards_are_rejected_witness :
  isValidMineableChain demoTwoRewards = Ok (CBool false)
  ∨ ∃ e, isValidMineableChain demoTwoRewards = Throw e.
Proof.
  apply (two_rewards_are_rejected demoTwoRewards
           (mkBlock [demoReward "02ka" 5; demoReward "02kb" 5]
                    (HStr "c0") (Some 1%Z) (HStr "00a1"))).
  - right. left.
  - cbn. lia.
Defined.

Lemma tampered_reward_is_rejected_witness :
  isValidMineableChain demoTamperedReward = Ok (CBool false)
  ∨ ∃ e, isValidMineableChain demoTamperedReward = Throw e.
Proof.
  apply (tampered_reward_is_rejected demoTamperedReward
           (mkBlock [demoReward "02ka" 7] (HStr "c0") (Some 1%Z) (HStr "00a1"))
           (demoReward "02ka" 7)).
  - right. left.
  - left.
  - reflexivity.
  - cbn. lia.
Defined.

Lemma mine_keeps_validHashes_witness : validHashes (chain_of demoFirstMine) = Ok true.
Proof.
  apply (@mine_keeps_validHashes demoSigning demoHashing 10 "ka"
           (@newMineableChain demoHashing)).
  - reflexivity.
  - vm_compute. reflexivity.
Defined.

Lemma mine_keeps_links_witness : ¬ brokenLink (chain_of demoFirstMine).
Proof.
  apply (@mine_keeps_links demoSigning demoHashing 10 "ka"
           (@newMineableChain demoHashing)).
  - intros (i & b1 & b2 & H1 & H2 & _). destruct i; discriminate.
  - vm_compute. reflexivity.
Defined.

Lemma mine_keeps_reward_checks_witness :
  oneRewardPerBlock (chain_of demoFirstMine) = true
  ∧ notTamperedReward (chain_of demoFirstMine) = true.
Proof.
  apply (@mine_keeps_reward_checks demoSigning demoHashing 10 "ka"
           (@newMineableChain demoHashing)).
  - reflexivity.
  - reflexivity.
  - intros t Ht. inversion Ht.
  - vm_compute. reflexivity.
Defined.

Lemma mining_a_queued_reward_is_rejected_witness :
  isValidMineableChain (chain_of demoQueuedRewardMined) = Ok (CBool false)
  ∨ ∃ e, isValidMineableChain (chain_of demoQueuedRewardMined) = Throw e.
Proof.
  apply (@mining_a_queued_reward_is_rejected demoSigning demoHashing 10 "ka"
           demoQueuedReward (chain_of demoQueuedRewardMined)
           (@MineableTransaction demoSigning "kc" None 5)).
  - left.
  - reflexivity.
  - vm_compute. reflexivity.
Defined.

Lemma replay_order_witness :
  allTransactions demoTwoRewards
  = concat (map transactions [demoGenesis])
    ++ [demoReward "02ka" 5; demoReward "02kb" 5]
    ++ concat (map transactions []).
Proof.
  apply (replay_order demoTwoRewards [demoGenesis]
           []
           (mkBlock [demoReward "02ka" 5; demoReward "02kb" 5]
                    (HStr "c0") (Some 1%Z) (HStr "00a1"))).
  reflexivity.
Defined.

Lemma more_blocks_never_repair_witness :
  truthy (prop (enoughFunds (chain_of demoThirdMine)) "isValid") = false ∧
  ∀ v, isValidMineableChain (chain_of demoThirdMine) = Ok v → truthy v = false.
Proof.
  apply (more_blocks_never_repair (chain_of demoScenario) (chain_of demoThirdMine)
           (drop 3 (blocks (chain_of demoThirdMine)))).
  - vm_compute. reflexivity.
  - vm_compute. reflexivity.
Defined.

Lemma first_transfer_is_rejected_witness :
  truthy (prop (enoughFunds (chain_of demoScenario)) "isValid") = false ∧
  ∀ v, isValidMineableChain (chain_of demoScenario) = Ok v → truthy v = false.
Proof.
  apply (first_transfer_is_rejected (chain_of demoScenario)
           [@MineableTransaction demoSigning "ka" None 5]
           [@MineableTransaction demoSigning "kb" None 5]
           demoTransfer "02ka").
  - vm_compute. reflexivity.
  - intros x Hx. apply list_elem_of_singleton in Hx. subst x. reflexivity.
  - reflexivity.
  - discriminate.
  - discriminate.
  - cbn. lia.
Defined.

Lemma balances_never_negative_witness :
  (∀ t, t ∈ allTransactions demoDebited → (0 ≤ amount t)%Z) ∧
  prop (enoughFunds demoDebited) "02ka" = CNum 2 ∧
  prop (enoughFunds demoDebited) "isValid" = CBool true ∧
  (0 ≤ 2)%Z.
Proof.
  assert (∀ t, t ∈ allTransactions demoDebited → (0 ≤ amount t)%Z) as Hall.
  { intros t Ht. vm_compute in Ht.
    apply elem_of_cons in Ht as [->|Ht]; [cbn; lia|].
    apply elem_of_cons in Ht as [->|Ht]; [cbn; lia|].
    apply list_elem_of_singleton in Ht. subst t. cbn. lia. }
  assert (prop (enoughFunds demoDebited) "02ka" = CNum 2) as Hbalance
    by (vm_compute; reflexivity).
  split; [exact Hall|]. split; [exact Hbalance|].
  split; [vm_compute; reflexivity|].
  exact (balances_never_negative demoDebited "02ka" 2 Hall Hbalance).
Defined.

Lemma transfer_accepted_iff_witness :
  truthy (prop (replayStep demoFunded (mkTransaction (Some "02ka") "02kb" 3 "sig"))
               "isValid") = true.
Proof.
  apply (proj2 (transfer_accepted_iff demoFunded
                  (mkTransaction (Some "02ka") "02kb" 3 "sig") "02ka"
                  eq_refl eq_refl ltac:(discriminate) ltac:(discriminate)
                  ltac:(discriminate))).
  right. exists 5%Z. split; [vm_compute; reflexivity|]. split; [discriminate|].
  cbn. discriminate.
Defined.

Lemma mined_only_chain_is_valid_witness :
  isValidMineableChain
    (chain_of (@mineEach demoSigning demoHashing 10 ["ka"; "kb"]
                 (@newMineableChain demoHashing)))
  = Ok (CBool true).
Proof.
  apply (@mined_only_chain_is_valid demoSigning demoHashing 10 ["ka"; "kb"]).
  - intros k Hk. apply elem_of_cons in Hk as [->|Hk]; [vm_compute; discriminate|].
    apply list_elem_of_singleton in Hk. subst k. vm_compute. discriminate.
  - vm_compute. reflexivity.
Defined.

Lemma isValidAddress_accepts_iff_witness :
  isValidAddress (JString (@getCollectionAddress demoSha512 "02ka")) = Ok true.
Proof.
  apply (proj2 (isValidAddress_accepts_iff (@getCollectionAddress demoSha512 "02ka"))).
  split; [vm_compute; reflexivity|]. eexists. reflexivity.
Defined.

Lemma built_addresses_are_valid_witness :
  isValidAddress (JString (@getCollectionAddress demoSha512 "02ka")) = Ok true ∧
  isValidAddress (JString (@getMojiAddress demoSha512 "02ka" "dna")) = Ok true ∧
  isValidAddress (JString (@getSireAddress demoSha512 "02ka")) = Ok true.
Proof.
  apply (@built_addresses_are_valid demoSha512 "02ka" "dna").
  intros x. apply padTo_length.
Defined.

Lemma moji_addresses_share_owner_prefix_witness :
  slice0 16 (@getMojiAddress demoSha512 "02ka" "dna1")
  = slice0 16 (@getMojiAddress demoSha512 "02ka" "dna2") ∧
  slice0 16 (@getMojiAddress demoSha512 "02ka" "dna1")
  = NAMESPACE +:+ PREFIXES_MOJI +:+ slice0 8 (@get512Hash demoSha512 "02ka").
Proof.
  apply (@moji_addresses_share_owner_prefix demoSha512 "02ka" "dna1" "dna2").
  change (8 ≤ String.length (padTo 128 "02ka"))%nat. rewrite padTo_length. lia.
Defined.

Lemma recombineDNA_interleaves_witness :
  String.length (recombineDNA "abcdef" "uvwxyz") = String.length "abcdef" ∧
  ∀ j, (j < 3)%nat →
    String.get (2 * j) (recombineDNA "abcdef" "uvwxyz") = String.get (3 - 1 - j) "abcdef" ∧
    String.get (2 * j + 1) (recombineDNA "abcdef" "uvwxyz")
    = String.get (3 - 1 - j) "uvwxyz".
Proof.
  apply (recombineDNA_interleaves "abcdef" "uvwxyz" 3); [reflexivity|cbn; lia].
Defined.

Lemma recombineDNA_ignores_second_halves_witness :
  recombineDNA "abcdef" "uvwxyz" = recombineDNA "abc000" "uvw".
Proof.
  apply (recombineDNA_ignores_second_halves "abcdef" "abc000" "uvwxyz" "uvw" 3);
    reflexivity.
Defined.

Lemma recombineDNA_odd_length_witness : recombineDNA "abcde" "uvwxy" = nans 3.
Proof. apply (recombineDNA_odd_length "abcde" "uvwxy" 2). reflexivity. Defined.

Lemma createDNA_without_draw_witness :
  @createDNA demoSha512 demoPrng "02ka" 0 (Some "seed")
  = slice0 36 (@get512Hash demoSha512 ("02ka" +:+ "undefined")).
Proof. apply (@createDNA_without_draw demoSha512 demoPrng "02ka" 0 (Some "seed")). lia. Defined.

Lemma createDNA_uses_last_draw_witness :
  @createDNA demoSha512 demoPrng "02ka" 2 (Some "seed")
  = slice0 36 (@get512Hash demoSha512
      ("02ka" +:+ @draws demoPrng
                    (if truthy_opt (Some "seed") then default "" (Some "seed") else "02ka")
                    (Z.to_nat 2 - 1))).
Proof. apply (@createDNA_uses_last_draw demoSha512 demoPrng "02ka" 2 (Some "seed")). lia. Defined.

Lemma negative_amount_fails_isValidChain_witness :
  @isValidChain demoSigning demoHashing demoNegativeAmount = Ok false.
Proof.
  apply (@negative_amount_fails_isValidChain demoSigning demoHashing demoNegativeAmount
           (mkBlock [mkTransaction (Some "02ka") "02kb" (-1) "sig"]
                    (HStr "c0") (Some 1%Z) (HStr "00a1"))
           (mkTransaction (Some "02ka") "02kb" (-1) "sig")).
  - right. left.
  - left.
  - cbn. lia.
Defined.

Lemma mine_throws_witness :
  @mine demoSigning demoHashing 1 "ka" demoNegativeDifficulty = Some (Throw RangeError).
Proof.
  apply (proj2 (@mine_throws demoSigning demoHashing 0 "ka" demoNegativeDifficulty)
           demoGenesis).
  - reflexivity.
  - cbn. lia.
  - vm_compute. discriminate.
Defined.

Lemma mining_empty_queue_keeps_valid_witness :
  isValidMineableChain (chain_of demoFirstMine) = Ok (CBool true).
Proof.
  apply (@mining_empty_queue_keeps_valid demoSigning demoHashing 10 "ka"
           (@newMineableChain demoHashing)).
  - vm_compute. reflexivity.
  - reflexivity.
  - vm_compute. discriminate.
  - vm_compute. reflexivity.
Defined.

Lemma transfer_moves_amount_witness :
  let state' := replayStep demoFunded (mkTransaction (Some "02ka") "02kb" 3 "sig") in
  truthy (prop state' "isValid") = true ∧
  prop state' "02ka" = CNum (5 - 3) ∧
  prop state' "02kb" = CNum (1 + 3).
Proof.
  apply (transfer_moves_amount demoFunded
           (mkTransaction (Some "02ka") "02kb" 3 "sig") "02ka" 5 1);
    try reflexivity; try discriminate; try (cbn; lia);
    try (unfold safeInteger; cbn; lia); vm_compute; reflexivity.
Defined.

Lemma breakChain_redirects_every_transaction_witness :
  ∃ t', allTransactions
          (@breakChain demoSigning "kx" (λ _, 7%Z) (chain_of demoScenario)) !! 1%nat
        = Some t' ∧
        recipient t' = "02kx" ∧
        source t' = Some "02ka" ∧
        amount t' = 3%Z ∧
        signature t' = signature demoTransfer.
Proof.
  destruct (@breakChain_redirects_every_transaction demoSigning "kx" (λ _, 7%Z)
              (chain_of demoScenario)) as [_ Hat].
  apply (Hat 1%nat demoTransfer). vm_compute. reflexivity.
Defined.
